(** * The WebRTC receive-session negotiator of [react-example.tsx]

    A shallow embedding of the React component [Component]: its four pieces
    of [useState] state, the [rtcConnection] ref, the two closures
    [disconnectRTCConnection] and [setupRTCConnection], and the two event
    handlers installed on every peer connection.

    The browser is the environment.  Every [await] of the async function
    [setupRTCConnection] is a suspension point: an invocation is kept as an
    [Attempt] with the continuation it is parked at, and the environment
    resumes it by an [Event] (promise fulfilled or rejected, timer fired,
    engine event dispatched).  One [Event] is one turn of the event loop,
    run to completion together with the continuations it wakes up. *)

From stdpp Require Import base decidable option numbers strings sorting list.

(** ** Values of the media engine *)

Inductive RTCIceConnectionState :=
  | IceNew | IceChecking | IceConnected | IceCompleted
  | IceDisconnected | IceFailed | IceClosed.

Inductive RTCIceGatheringState :=
  | GatheringNew | GatheringGathering | GatheringComplete.

#[global] Instance RTCIceConnectionState_eq_dec : EqDecision RTCIceConnectionState.
Proof. solve_decision. Defined.

#[global] Instance RTCIceGatheringState_eq_dec : EqDecision RTCIceGatheringState.
Proof. solve_decision. Defined.

(** The strings the source compares [pc.iceConnectionState] with. *)
Definition ice_state_name (st : RTCIceConnectionState) : string :=
  match st with
  | IceNew => "new" | IceChecking => "checking" | IceConnected => "connected"
  | IceCompleted => "completed" | IceDisconnected => "disconnected"
  | IceFailed => "failed" | IceClosed => "closed"
  end.

(** [Array.prototype.includes] on an array of strings. *)
Definition includes (l : list string) (x : string) : bool :=
  bool_decide (x ∈ l).

Record RTCSessionDescription := {
  sd_type : string;
  sd_sdp : string
}.

Record RTCPeerConnection := {
  pc_closed : bool;
  iceConnectionState : RTCIceConnectionState;
  iceGatheringState : RTCIceGatheringState;
  localDescription : option RTCSessionDescription;
  remoteDescription : option RTCSessionDescription;
  transceivers : list (string * string)
}.

(** [new RTCPeerConnection(config)]: open, nothing negotiated yet. *)
Definition new_RTCPeerConnection : RTCPeerConnection :=
  {| pc_closed := false;
     iceConnectionState := IceNew;
     iceGatheringState := GatheringNew;
     localDescription := None;
     remoteDescription := None;
     transceivers := [] |}.

(** [pc.close()]: the connection is closed for good, its ICE connection
    state reads "closed", and every transceiver is stopped: its direction
    reads "stopped" from then on. *)
Definition pc_close (c : RTCPeerConnection) : RTCPeerConnection :=
  {| pc_closed := true;
     iceConnectionState := IceClosed;
     iceGatheringState := iceGatheringState c;
     localDescription := localDescription c;
     remoteDescription := remoteDescription c;
     transceivers := (λ tr, (tr.1, "stopped")) <$> transceivers c |}.

(** [pc.addTransceiver(kind, { direction })]. *)
Definition pc_addTransceiver (kind direction : string)
    (c : RTCPeerConnection) : RTCPeerConnection :=
  {| pc_closed := pc_closed c;
     iceConnectionState := iceConnectionState c;
     iceGatheringState := iceGatheringState c;
     localDescription := localDescription c;
     remoteDescription := remoteDescription c;
     transceivers := transceivers c ++ [(kind, direction)] |}.

(** What the engine itself writes into a connection.  It writes nothing
    into a closed one ([engine_write]): after [close()] the ICE connection
    state reads "closed" for good. *)
Definition engine_write (f : RTCPeerConnection → RTCPeerConnection)
    (c : RTCPeerConnection) : RTCPeerConnection :=
  if pc_closed c then c else f c.

Definition pc_set_iceConnectionState (st : RTCIceConnectionState)
    (c : RTCPeerConnection) : RTCPeerConnection :=
  {| pc_closed := pc_closed c;
     iceConnectionState := st;
     iceGatheringState := iceGatheringState c;
     localDescription := localDescription c;
     remoteDescription := remoteDescription c;
     transceivers := transceivers c |}.

Definition pc_set_iceGatheringState (st : RTCIceGatheringState)
    (c : RTCPeerConnection) : RTCPeerConnection :=
  {| pc_closed := pc_closed c;
     iceConnectionState := iceConnectionState c;
     iceGatheringState := st;
     localDescription := localDescription c;
     remoteDescription := remoteDescription c;
     transceivers := transceivers c |}.

Definition pc_set_localDescription (d : option RTCSessionDescription)
    (c : RTCPeerConnection) : RTCPeerConnection :=
  {| pc_closed := pc_closed c;
     iceConnectionState := iceConnectionState c;
     iceGatheringState := iceGatheringState c;
     localDescription := d;
     remoteDescription := remoteDescription c;
     transceivers := transceivers c |}.

Definition pc_set_remoteDescription (d : option RTCSessionDescription)
    (c : RTCPeerConnection) : RTCPeerConnection :=
  {| pc_closed := pc_closed c;
     iceConnectionState := iceConnectionState c;
     iceGatheringState := iceGatheringState c;
     localDescription := localDescription c;
     remoteDescription := d;
     transceivers := transceivers c |}.

(** A gathered candidate is written into the sdp of the local description. *)
Definition pc_gather_candidate (sdp : string)
    (c : RTCPeerConnection) : RTCPeerConnection :=
  pc_set_localDescription
    ((λ d, {| sd_type := sd_type d; sd_sdp := sdp |}) <$> localDescription c) c.

(** ** Thrown values and [String(err)] *)

Inductive Thrown :=
  | ErrorObject (name message : string)
  | OtherThrown (text : string).

(** [new Error(message)]. *)
Definition new_Error (message : string) : Thrown := ErrorObject "Error" message.

(** [String(err)]: [Error.prototype.toString] for error objects; any other
    thrown value is given by its string conversion. *)
Definition String_of (e : Thrown) : string :=
  match e with
  | ErrorObject name message =>
      if bool_decide (name = "") then message
      else if bool_decide (message = "") then name
      else name +:+ ": " +:+ message
  | OtherThrown text => text
  end.

(** The values of the enumeration [RTCSdpType]. *)
Definition RTCSdpType : list string := ["answer"; "offer"; "pranswer"; "rollback"].

(** What converting any other string to [RTCSdpType] throws: a [TypeError].
    Its message is the engine's own; nothing below depends on it. *)
Definition sdp_type_error (type : string) : Thrown :=
  ErrorObject "TypeError"
    ("The provided value '" +:+ type +:+ "' is not a valid enum value of type RTCSdpType.").

(** [new RTCSessionDescription({ type, sdp })]: the member [type] of the
    dictionary is an [RTCSdpType], so the constructor throws for any other
    string. *)
Definition new_RTCSessionDescription (init : RTCSessionDescription)
    : Thrown + RTCSessionDescription :=
  if includes RTCSdpType (sd_type init) then inr init
  else inl (sdp_type_error (sd_type init)).

(** ** The relay ([callAthena]) *)

Record AthenaRequest := {
  req_type : string;
  req_sdp : option string;
  req_cameras : list string;
  req_bridge_services_in : list string;
  req_bridge_services_out : list string;
  req_dongleId : string
}.

Record AthenaResponse := {
  resp_error : option string;
  resp_sdp : option string;
  resp_type : option string
}.

(** JavaScript truthiness of a [string | undefined]. *)
Definition truthy (v : option string) : bool :=
  match v with
  | Some x => negb (bool_decide (x = ""))
  | None => false
  end.

(** [a || b] on such values. *)
Definition js_or (a : option string) (b : string) : string :=
  match a with
  | Some x => if bool_decide (x = "") then b else x
  | None => b
  end.

(** ** The component *)

Record StreamEntry := {
  stream : list string;   (* [new MediaStream([track])], a track by its id *)
  label : string
}.

(** The continuation an invocation of [setupRTCConnection] is parked at.
    In [AwaitIceGathering] the listener is registered and the promise is
    pending; [since] records the time the wait began. *)
Inductive Stage :=
  | AwaitCreateOffer
  | AwaitSetLocalDescription (offer : RTCSessionDescription)
  | AwaitIceGathering (since : N)
  | AwaitCallAthena (req : AthenaRequest)
  | AwaitSetRemoteDescription (answer : RTCSessionDescription)
  | Returned.

Record Attempt := {
  a_pc : nat;             (* the [pc] of this invocation *)
  a_dongleId : string;    (* the [dongleId] its closure captured *)
  a_stage : Stage
}.

Record Component := {
  streams : list StreamEntry;
  status : option string;
  error : option string;
  reconnecting : bool;
  rtcConnection : option nat;          (* [rtcConnection.current] *)
  heap : list RTCPeerConnection;       (* every connection ever created *)
  attempts : list Attempt;             (* every invocation ever started *)
  timers : list (N * nat);             (* pending [setTimeout]s: deadline, attempt *)
  now : N                              (* the clock of the event loop, in ms *)
}.

Definition setStreams (f : list StreamEntry → list StreamEntry)
    (s : Component) : Component :=
  {| streams := f (streams s); status := status s; error := error s;
     reconnecting := reconnecting s; rtcConnection := rtcConnection s;
     heap := heap s; attempts := attempts s; timers := timers s; now := now s |}.

Definition setStatus (v : option string) (s : Component) : Component :=
  {| streams := streams s; status := v; error := error s;
     reconnecting := reconnecting s; rtcConnection := rtcConnection s;
     heap := heap s; attempts := attempts s; timers := timers s; now := now s |}.

Definition setError (v : option string) (s : Component) : Component :=
  {| streams := streams s; status := status s; error := v;
     reconnecting := reconnecting s; rtcConnection := rtcConnection s;
     heap := heap s; attempts := attempts s; timers := timers s; now := now s |}.

Definition setReconnecting (v : bool) (s : Component) : Component :=
  {| streams := streams s; status := status s; error := error s;
     reconnecting := v; rtcConnection := rtcConnection s;
     heap := heap s; attempts := attempts s; timers := timers s; now := now s |}.

Definition set_rtcConnection (v : option nat) (s : Component) : Component :=
  {| streams := streams s; status := status s; error := error s;
     reconnecting := reconnecting s; rtcConnection := v;
     heap := heap s; attempts := attempts s; timers := timers s; now := now s |}.

Definition set_heap (h : list RTCPeerConnection) (s : Component) : Component :=
  {| streams := streams s; status := status s; error := error s;
     reconnecting := reconnecting s; rtcConnection := rtcConnection s;
     heap := h; attempts := attempts s; timers := timers s; now := now s |}.

Definition set_attempts (a : list Attempt) (s : Component) : Component :=
  {| streams := streams s; status := status s; error := error s;
     reconnecting := reconnecting s; rtcConnection := rtcConnection s;
     heap := heap s; attempts := a; timers := timers s; now := now s |}.

Definition set_timers (t : list (N * nat)) (s : Component) : Component :=
  {| streams := streams s; status := status s; error := error s;
     reconnecting := reconnecting s; rtcConnection := rtcConnection s;
     heap := heap s; attempts := attempts s; timers := t; now := now s |}.

Definition set_now (n : N) (s : Component) : Component :=
  {| streams := streams s; status := status s; error := error s;
     reconnecting := reconnecting s; rtcConnection := rtcConnection s;
     heap := heap s; attempts := attempts s; timers := timers s; now := n |}.

(** The component as mounted: the initial values of the hooks. *)
Definition mounted : Component :=
  {| streams := []; status := None; error := None; reconnecting := false;
     rtcConnection := None; heap := []; attempts := []; timers := []; now := 0%N |}.

(** A method call or an engine write on connection [pc]. *)
Definition on_pc (pc : nat) (f : RTCPeerConnection → RTCPeerConnection)
    (s : Component) : Component :=
  set_heap (alter f pc (heap s)) s.

Definition set_stage (t : nat) (st : Stage) (s : Component) : Component :=
  set_attempts
    (alter (λ a, {| a_pc := a_pc a; a_dongleId := a_dongleId a; a_stage := st |})
       t (attempts s)) s.

Definition stage_of (t : nat) (s : Component) : option Stage :=
  a_stage <$> attempts s !! t.

(** *** [disconnectRTCConnection] *)

Definition disconnectRTCConnection (s : Component) : Component :=
  let s1 :=
    match rtcConnection s with
    | Some pc => set_rtcConnection None (on_pc pc pc_close s)
    | None => s
    end in
  setStreams (λ _, []) s1.

(** *** The handlers installed on a connection *)

(** The updater passed to [setStreams] by [pc.ontrack]. *)
Definition ontrack_update (id : string) (prev : list StreamEntry)
    : list StreamEntry :=
  if existsb (λ e, bool_decide (label e = id)) prev then prev
  else prev ++ [{| stream := [id]; label := id |}].

Definition ontrack (id : string) (s : Component) : Component :=
  setStreams (ontrack_update id) s.

Definition ICE_FAILURE_MESSAGE : string := "Connection failed".

Definition oniceconnectionstatechange (pc : nat) (s : Component) : Component :=
  match heap s !! pc with
  | Some c =>
      let state := ice_state_name (iceConnectionState c) in
      if includes ["connected"; "completed"] state then setStatus None s
      else if includes ["failed"; "disconnected"] state
           then setError (Some ICE_FAILURE_MESSAGE) s
           else s
  | None => s
  end.

(** *** [setupRTCConnection], continuation by continuation *)

Definition ICE_GATHERING_TIMEOUT : N := 2000%N.

(** The [catch] block. *)
Definition catch (t : nat) (err : Thrown) (s : Component) : Component :=
  set_stage t Returned
    (setReconnecting false
       (setError (Some ("Failed to connect: " +:+ String_of err)) s)).

(** What [new RTCPeerConnection(...)] does when it is called: the engine
    returns a connection, or the constructor throws. *)
Inductive Construction :=
  | Constructed
  | ConstructorThrows (err : Thrown).

(** From the call up to [await pc.createOffer()].  The constructor is called
    inside the [try]: when it throws, nothing has been created or stored yet,
    and the [catch] block runs in the turn of the call, which then returns;
    no continuation is parked.  On the connection just created, open and
    with the kind "video", [addTransceiver] does not throw. *)
Definition setupRTCConnection_with (made : Construction)
    (dongleId : option string) (s : Component) : Component :=
  match dongleId with
  | None => s
  | Some d =>
      if bool_decide (d = "") then s
      else
        let s := disconnectRTCConnection s in
        let s := setReconnecting true s in
        let s := setError None s in
        let s := setStatus (Some "Initiating connection...") s in
        match made with
        | ConstructorThrows err =>
            let s := setError (Some ("Failed to connect: " +:+ String_of err)) s in
            setReconnecting false s
        | Constructed =>
            let pc := length (heap s) in
            let s := set_heap (heap s ++ [new_RTCPeerConnection]) s in
            let s := set_rtcConnection (Some pc) s in
            let s := on_pc pc (pc_addTransceiver "video" "recvonly") s in
            let s := on_pc pc (pc_addTransceiver "video" "recvonly") s in
            let s := setStatus (Some "Creating offer...") s in
            set_attempts
              (attempts s ++
                 [{| a_pc := pc; a_dongleId := d; a_stage := AwaitCreateOffer |}]) s
        end
  end.

(** The call in which the constructor returns. *)
Definition setupRTCConnection (dongleId : option string)
    (s : Component) : Component :=
  setupRTCConnection_with Constructed dongleId s.

(** [pc.localDescription?.sdp]. *)
Definition local_sdp (pc : nat) (s : Component) : option string :=
  match heap s !! pc with
  | Some c => sd_sdp <$> localDescription c
  | None => None
  end.

(** The request [callAthena] is given. *)
Definition athena_request (sdp : option string) (dongleId : string)
    : AthenaRequest :=
  {| req_type := "forwardWebRTC";
     req_sdp := sdp;
     req_cameras := ["driver"; "wideRoad"];
     req_bridge_services_in := [];
     req_bridge_services_out := [];
     req_dongleId := dongleId |}.

(** After the ICE wait: from [setStatus("Sending offer via Athena...")] up to
    [await callAthena(...)]. *)
Definition sendOffer (t : nat) (s : Component) : Component :=
  match attempts s !! t with
  | Some a =>
      let s := setStatus (Some "Sending offer via Athena...") s in
      let sdp := local_sdp (a_pc a) s in
      set_stage t (AwaitCallAthena (athena_request sdp (a_dongleId a))) s
  | None => s
  end.

Definition gathering_complete (pc : nat) (s : Component) : bool :=
  match heap s !! pc with
  | Some c => bool_decide (iceGatheringState c = GatheringComplete)
  | None => false
  end.

(** The executor of the ICE-wait promise, run when
    [await pc.setLocalDescription(offer)] resumes. *)
Definition iceWait (t : nat) (s : Component) : Component :=
  match attempts s !! t with
  | Some a =>
      if gathering_complete (a_pc a) s then sendOffer t s
      else
        set_timers (timers s ++ [((now s + ICE_GATHERING_TIMEOUT)%N, t)])
          (set_stage t (AwaitIceGathering (now s)) s)
  | None => s
  end.

(** The listener [checkState] of attempt [t], dispatched for connection [pc]. *)
Definition checkState (pc : nat) (s : Component) (t : nat) : Component :=
  match attempts s !! t with
  | Some a =>
      match a_stage a with
      | AwaitIceGathering _ =>
          if bool_decide (a_pc a = pc) && gathering_complete pc s
          then sendOffer t s
          else s
      | _ => s
      end
  | None => s
  end.

(** The callback of the [setTimeout] of attempt [t]: it removes the listener
    and calls [resolve], which does nothing on a promise already resolved. *)
Definition timerCallback (s : Component) (t : nat) : Component :=
  match attempts s !! t with
  | Some a =>
      match a_stage a with
      | AwaitIceGathering _ => sendOffer t s
      | _ => s
      end
  | None => s
  end.

(** The two checks on the relay's response: what they throw, or the type
    and sdp they let through. *)
Definition check_response (resp : option AthenaResponse)
    : Thrown + RTCSessionDescription :=
  match resp with
  | None => inl (new_Error "Unknown error from Athena")
  | Some r =>
      if truthy (resp_error r)
      then inl (new_Error (js_or (resp_error r) "Unknown error from Athena"))
      else
        let answerSdp := resp_sdp r in
        let answerType := resp_type r in
        if negb (truthy answerSdp) || negb (truthy answerType)
        then inl (new_Error "Invalid response from webrtcd")
        else inr {| sd_type := default "" answerType;
                    sd_sdp := default "" answerSdp |}
  end.

(** From the relay's response up to [await pc.setRemoteDescription(...)]:
    the two checks, then [new RTCSessionDescription({ type, sdp })]. *)
Definition onAthenaResponse (t : nat) (resp : option AthenaResponse)
    (s : Component) : Component :=
  match check_response resp with
  | inl err => catch t err s
  | inr init =>
      match new_RTCSessionDescription init with
      | inl err => catch t err s
      | inr answer => set_stage t (AwaitSetRemoteDescription answer) s
      end
  end.

(** After [await pc.setRemoteDescription(...)]. *)
Definition finish (t : nat) (s : Component) : Component :=
  set_stage t Returned (setReconnecting false (setStatus None s)).

(** ** The environment *)

Inductive Event :=
  | Negotiate (dongleId : option string)
      (* [setupRTCConnection()] is called: by the effect or by the button *)
  | NegotiateThrows (dongleId : option string) (err : Thrown)
      (* the same call, in which [new RTCPeerConnection] throws [err] *)
  | Teardown
      (* the cleanup of the effect: [disconnectRTCConnection()] *)
  | OfferResolved (t : nat) (offer : RTCSessionDescription)
  | OfferRejected (t : nat) (err : Thrown)
  | SetLocalResolved (t : nat)
  | SetLocalRejected (t : nat) (err : Thrown)
  | CandidateGathered (pc : nat) (sdp : string)
  | GatheringStateChange (pc : nat) (st : RTCIceGatheringState)
  | Elapse (dt : N)
      (* time passes *)
  | TimerFires
      (* the event loop runs the callback of the timer that is first in line *)
  | RelayResolved (t : nat) (resp : option AthenaResponse)
  | RelayRejected (t : nat) (err : Thrown)
  | SetRemoteResolved (t : nat)
  | SetRemoteRejected (t : nat) (err : Thrown)
  | TrackEvent (pc : nat) (trackId : string)
  | IceConnectionStateChange (pc : nat) (st : RTCIceConnectionState).

(** The engine dispatches [icegatheringstatechange] on [pc] to the listeners
    registered on it. *)
Definition dispatch_icegatheringstatechange (pc : nat)
    (s : Component) : Component :=
  foldl (checkState pc) s (seq 0 (length (attempts s))).

(** The clock moves on by [dt].  No callback runs by the passing of time
    alone: a timer that has fallen due stays pending until the event loop
    gets to it. *)
Definition elapse (dt : N) (s : Component) : Component :=
  set_now (now s + dt)%N s.

(** The event loop runs a timer callback: the timer first in line, and only
    once it has fallen due.  All timers of the component are set with the
    same delay, so they are run in the order they were set, never early and
    as late as the event loop pleases. *)
Definition fireTimer (s : Component) : Component :=
  match timers s with
  | (due, t) :: rest =>
      if bool_decide (due ≤ now s)%N then timerCallback (set_timers rest s) t
      else s
  | [] => s
  end.

Arguments fireTimer : simpl never.

(** One turn of the event loop.  An event that finds its attempt parked
    elsewhere, or names a connection never created, is not for this
    component and changes nothing. *)
Definition step (s : Component) (e : Event) : Component :=
  match e with
  | Negotiate dongleId => setupRTCConnection dongleId s
  | NegotiateThrows dongleId err =>
      setupRTCConnection_with (ConstructorThrows err) dongleId s
  | Teardown => disconnectRTCConnection s
  | OfferResolved t offer =>
      match stage_of t s with
      | Some AwaitCreateOffer => set_stage t (AwaitSetLocalDescription offer) s
      | _ => s
      end
  | OfferRejected t err =>
      match stage_of t s with
      | Some AwaitCreateOffer => catch t err s
      | _ => s
      end
  | SetLocalResolved t =>
      match attempts s !! t with
      | Some a =>
          match a_stage a with
          | AwaitSetLocalDescription offer =>
              iceWait t
                (on_pc (a_pc a)
                   (engine_write (pc_set_localDescription (Some offer))) s)
          | _ => s
          end
      | None => s
      end
  | SetLocalRejected t err =>
      match stage_of t s with
      | Some (AwaitSetLocalDescription _) => catch t err s
      | _ => s
      end
  | CandidateGathered pc sdp =>
      on_pc pc (engine_write (pc_gather_candidate sdp)) s
  | GatheringStateChange pc st =>
      dispatch_icegatheringstatechange pc
        (on_pc pc (engine_write (pc_set_iceGatheringState st)) s)
  | Elapse dt => elapse dt s
  | TimerFires => fireTimer s
  | RelayResolved t resp =>
      match stage_of t s with
      | Some (AwaitCallAthena _) => onAthenaResponse t resp s
      | _ => s
      end
  | RelayRejected t err =>
      match stage_of t s with
      | Some (AwaitCallAthena _) => catch t err s
      | _ => s
      end
  | SetRemoteResolved t =>
      match attempts s !! t with
      | Some a =>
          match a_stage a with
          | AwaitSetRemoteDescription answer =>
              finish t
                (on_pc (a_pc a)
                   (engine_write (pc_set_remoteDescription (Some answer))) s)
          | _ => s
          end
      | None => s
      end
  | SetRemoteRejected t err =>
      match stage_of t s with
      | Some (AwaitSetRemoteDescription _) => catch t err s
      | _ => s
      end
  | TrackEvent pc trackId =>
      match heap s !! pc with
      | Some _ => ontrack trackId s
      | None => s
      end
  | IceConnectionStateChange pc st =>
      oniceconnectionstatechange pc
        (on_pc pc (engine_write (pc_set_iceConnectionState st)) s)
  end.

(** A run of the event loop. *)
Definition run (s : Component) (es : list Event) : Component :=
  foldl step s es.

(** The states the component can be in: those a run reaches from the mount. *)
Definition reachable (s : Component) : Prop :=
  ∃ es, s = run mounted es.

(** ** Frames and invariants *)

(** The driver's continuations never touch the track registry, the ref or
    the connections, and an invocation keeps its connection. *)
Definition driver_frame (s s' : Component) : Prop :=
  streams s' = streams s ∧ rtcConnection s' = rtcConnection s ∧
  heap s' = heap s ∧ a_pc <$> attempts s' = a_pc <$> attempts s.

Definition closed_flags (s : Component) : list bool := pc_closed <$> heap s.

(** Connections that are not closed. *)
Definition live_connections (s : Component) : list RTCPeerConnection :=
  filter (λ c, pc_closed c = false) (heap s).

(** The engine writes and the method calls other than [close] keep a
    connection open or closed as it is. *)
Definition keeps_closed (f : RTCPeerConnection → RTCPeerConnection) : Prop :=
  ∀ c, pc_closed (f c) = pc_closed c.

Definition lifecycle_frame (s s' : Component) : Prop :=
  rtcConnection s' = rtcConnection s ∧ closed_flags s' = closed_flags s.

(** Is the event a call into the lifecycle manager? *)
Definition is_lifecycle_call (e : Event) : bool :=
  match e with
  | Negotiate _ | NegotiateThrows _ _ | Teardown => true
  | _ => false
  end.

(** The invariant of the lifecycle manager: a connection that is not closed
    is the one the ref holds. *)
Definition one_live (s : Component) : Prop :=
  ∀ i, closed_flags s !! i = Some false → rtcConnection s = Some i.

(** A closed connection reports the ICE connection state "closed". *)
Definition closed_ok (c : RTCPeerConnection) : Prop :=
  pc_closed c = true → iceConnectionState c = IceClosed.

Definition closed_inv (s : Component) : Prop := Forall closed_ok (heap s).

Definition receiver : RTCPeerConnection :=
  pc_addTransceiver "video" "recvonly"
    (pc_addTransceiver "video" "recvonly" new_RTCPeerConnection).

(** Does the event write to the track registry? *)
Definition writes_streams (e : Event) : bool :=
  match e with
  | Negotiate _ | NegotiateThrows _ _ | Teardown | TrackEvent _ _ => true
  | _ => false
  end.

(** Attempt [a] once its wait is over: parked at the relay call, with the
    sdp that the local description of its connection has in [s]. *)
Definition sent (s : Component) (a : Attempt) : Attempt :=
  {| a_pc := a_pc a; a_dongleId := a_dongleId a;
     a_stage :=
       AwaitCallAthena (athena_request (local_sdp (a_pc a) s) (a_dongleId a)) |}.

(** From [s] to [s'] nothing happened but waits being resolved. *)
Definition resolves (s s' : Component) : Prop :=
  heap s' = heap s ∧ timers s' = timers s ∧ now s' = now s ∧
  error s' = error s ∧ reconnecting s' = reconnecting s ∧
  (status s' = status s ∧ attempts s' = attempts s ∨
   status s' = Some "Sending offer via Athena...") ∧
  ∀ t, attempts s' !! t = attempts s !! t ∨
       ∃ a since, attempts s !! t = Some a ∧
                  a_stage a = AwaitIceGathering since ∧
                  attempts s' !! t = Some (sent s a).

(** Is attempt [t] parked in the ICE wait? *)
Definition waiting (t : nat) (s : Component) : bool :=
  match stage_of t s with
  | Some (AwaitIceGathering _) => true
  | _ => false
  end.



(** ** Failure and success of an attempt *)

(** The event makes attempt [t] fail, with [err] thrown inside the [try]:
    a rejected [createOffer] or [setLocalDescription], a rejected relay
    call, a relay response refused by [check_response] (error field, or sdp
    or type missing), a rejected [setRemoteDescription]. *)
Definition failure (s : Component) (e : Event) : option (nat * Thrown) :=
  match e with
  | OfferRejected t err =>
      match stage_of t s with
      | Some AwaitCreateOffer => Some (t, err)
      | _ => None
      end
  | SetLocalRejected t err =>
      match stage_of t s with
      | Some (AwaitSetLocalDescription _) => Some (t, err)
      | _ => None
      end
  | RelayRejected t err =>
      match stage_of t s with
      | Some (AwaitCallAthena _) => Some (t, err)
      | _ => None
      end
  | RelayResolved t resp =>
      match stage_of t s, check_response resp with
      | Some (AwaitCallAthena _), inl err => Some (t, err)
      | _, _ => None
      end
  | SetRemoteRejected t err =>
      match stage_of t s with
      | Some (AwaitSetRemoteDescription _) => Some (t, err)
      | _ => None
      end
  | _ => None
  end.

(** A response with sdp and type and no error. *)
Definition well_formed (r : AthenaResponse) : bool :=
  negb (truthy (resp_error r)) && truthy (resp_sdp r) && truthy (resp_type r).


(** What the event makes attempt [t] throw inside the [try], if anything:
    one of the failures above, or the [TypeError] of
    [new RTCSessionDescription] for a response that passed the two checks. *)
Definition thrown (s : Component) (e : Event) : option (nat * Thrown) :=
  match failure s e with
  | Some f => Some f
  | None =>
      match e with
      | RelayResolved t resp =>
          match stage_of t s, check_response resp with
          | Some (AwaitCallAthena _), inr init =>
              match new_RTCSessionDescription init with
              | inl err => Some (t, err)
              | inr _ => None
              end
          | _, _ => None
          end
      | _ => None
      end
  end.


(** ** Scenarios *)

Definition offer0 : RTCSessionDescription :=
  {| sd_type := "offer"; sd_sdp := "v=0 offer" |}.

Definition answer_ok : AthenaResponse :=
  {| resp_error := None; resp_sdp := Some "v=0..."; resp_type := Some "answer" |}.

Definition device_offline : AthenaResponse :=
  {| resp_error := Some "device offline"; resp_sdp := None; resp_type := None |}.

Definition no_answer : AthenaResponse :=
  {| resp_error := None; resp_sdp := None; resp_type := Some "answer" |}.

(** Device "abc123", gathering completes after 50ms, the relay answers. *)
Definition scenario_ready : list Event :=
  [ Negotiate (Some "abc123"); OfferResolved 0 offer0; SetLocalResolved 0;
    CandidateGathered 0 "v=0 offer a=candidate"; Elapse 50%N;
    GatheringStateChange 0 GatheringComplete;
    RelayResolved 0 (Some answer_ok); SetRemoteResolved 0 ].

Definition in_flight : Component :=
  run mounted [ Negotiate (Some "abc123"); OfferResolved 0 offer0 ].

Definition one_track : Component :=
  run mounted [ Negotiate (Some "abc123"); TrackEvent 0 "track-1" ].

Definition torn_down : Component :=
  run mounted [ Negotiate (Some "abc123"); Teardown ].

Definition awaiting_relay : Component :=
  run mounted [ Negotiate (Some "abc123"); OfferResolved 0 offer0;
                SetLocalResolved 0; Elapse 2000%N; TimerFires ].

Definition creating_offer : Component :=
  run mounted [ Negotiate (Some "abc123") ].

Definition ice_disconnected : Component :=
  run mounted [ Negotiate (Some "abc123");
                IceConnectionStateChange 0 IceDisconnected ].




Definition parked (st : Stage) : Attempt :=
  {| a_pc := 0; a_dongleId := "abc123"; a_stage := st |}.


(** ** The effect, the view and the button *)

(** The effect on [dongleId]: when the identifier changes, React runs the
    cleanup of the previous effect and then the effect again. *)
Definition dongleId_changed (dongleId : option string)
    (s : Component) : Component :=
  setupRTCConnection dongleId (disconnectRTCConnection s).

(** One element of [streams.map(...)]: the [key], the text of the [h3] and
    the [srcObject] the ref callback gives the [video]. *)
Record VideoItem := {
  item_key : nat;
  item_heading : string;
  item_srcObject : list string
}.

(** What the returned JSX depends on: the attributes and children written
    in braces. *)
Record View := {
  button_disabled : bool;
  button_className : string;
  button_text : string;
  status_line : option string;    (* [{status && <div ...>{status}</div>}] *)
  error_line : option string;     (* [{error && <div ...>{error}</div>}] *)
  video_items : list VideoItem
}.

(** [x && <div>{x}</div>] for a [string | null]: the [div] when [x] is
    truthy, nothing rendered otherwise. *)
Definition and_div (x : option string) : option string :=
  if truthy x then x else None.

Definition render (s : Component) : View :=
  {| button_disabled := reconnecting s;
     button_className :=
       "px-4 py-2 rounded " +:+
       (if reconnecting s then "bg-gray-600" else "bg-blue-500") +:+
       " text-white";
     button_text := if reconnecting s then "Reconnect..." else "Reconnect";
     status_line := and_div (status s);
     error_line := and_div (error s);
     video_items :=
       imap (λ i item, {| item_key := i; item_heading := label item;
                          item_srcObject := stream item |}) (streams s) |}.


(** The click in which the constructor returns. *)
Definition click (dongleId : option string) (s : Component) : Component :=
  if button_disabled (render s) then s else setupRTCConnection dongleId s.

(** ** The stages of an attempt *)

(** The request of attempt [a], built from the local description its
    connection has in [s]. *)
Definition request_of (s : Component) (a : Attempt) : AthenaRequest :=
  athena_request (local_sdp (a_pc a) s) (a_dongleId a).

(** The moves of an attempt from one [await] to the next: [advances s t a e st]
    says that event [e], taken in state [s], resumes attempt [t], parked as
    [a], and leaves it at [st].  Every move has its cause: the promise the
    attempt awaits is fulfilled, the timer first in line is its own and has
    fallen due, gathering is complete on its connection, or something is
    thrown inside the [try]. *)
Inductive advances (s : Component) (t : nat) (a : Attempt)
    : Event → Stage → Prop :=
  | adv_offer offer :
      a_stage a = AwaitCreateOffer →
      advances s t a (OfferResolved t offer) (AwaitSetLocalDescription offer)
  | adv_wait offer :
      a_stage a = AwaitSetLocalDescription offer →
      gathering_complete (a_pc a) s = false →
      advances s t a (SetLocalResolved t) (AwaitIceGathering (now s))
  | adv_send_at_once offer :
      a_stage a = AwaitSetLocalDescription offer →
      gathering_complete (a_pc a) s = true →
      advances s t a (SetLocalResolved t)
        (AwaitCallAthena (request_of (step s (SetLocalResolved t)) a))
  | adv_timeout since due rest :
      a_stage a = AwaitIceGathering since →
      timers s = (due, t) :: rest → (due ≤ now s)%N →
      advances s t a TimerFires (AwaitCallAthena (request_of s a))
  | adv_gathered since st :
      a_stage a = AwaitIceGathering since →
      gathering_complete (a_pc a)
        (step s (GatheringStateChange (a_pc a) st)) = true →
      advances s t a (GatheringStateChange (a_pc a) st)
        (AwaitCallAthena
           (request_of (step s (GatheringStateChange (a_pc a) st)) a))
  | adv_answer req r init answer :
      a_stage a = AwaitCallAthena req →
      check_response (Some r) = inr init →
      new_RTCSessionDescription init = inr answer →
      advances s t a (RelayResolved t (Some r)) (AwaitSetRemoteDescription answer)
  | adv_return answer :
      a_stage a = AwaitSetRemoteDescription answer →
      advances s t a (SetRemoteResolved t) Returned
  | adv_fail e err :
      a_stage a ≠ Returned → thrown s e = Some (t, err) →
      advances s t a e Returned.

(** Is the event a call of [setupRTCConnection] with a device in which the
    constructor returns?  Only such a call parks a continuation. *)
Definition starts_attempt (e : Event) : bool :=
  match e with
  | Negotiate dongleId => truthy dongleId
  | _ => false
  end.


(** The messages the component ever puts into [error]. *)
Definition error_shape (v : option string) : Prop :=
  v = None ∨ v = Some ICE_FAILURE_MESSAGE
  ∨ ∃ text, v = Some ("Failed to connect: " +:+ text).

(** The messages the component leaves in [status] at the end of a turn. *)
Definition status_shape (v : option string) : Prop :=
  v = None ∨ v = Some "Creating offer..."
  ∨ v = Some "Sending offer via Athena..."
  ∨ v = Some "Initiating connection...".

(** "Initiating connection..." is on show only after a call whose
    constructor threw: the button is enabled, the ref is empty, and the
    error tells of a failure to connect. *)
Definition initiating_inv (s : Component) : Prop :=
  status s = Some "Initiating connection..." →
  reconnecting s = false ∧ rtcConnection s = None ∧
  ∃ text, error s = Some ("Failed to connect: " +:+ text).


(** ** Invariants and scenarios of the further properties *)


(** The ref holds the connection created last, and that one is open. *)
Definition ref_inv (s : Component) : Prop :=
  ∀ i, rtcConnection s = Some i →
    closed_flags s !! i = Some false ∧ S i = length (heap s).


(** Every attempt has a device, and a request at the relay is the one built
    for that device. *)
Definition request_inv (s : Component) : Prop :=
  ∀ t a, attempts s !! t = Some a →
    a_dongleId a ≠ "" ∧
    ∀ req, a_stage a = AwaitCallAthena req →
           req = athena_request (req_sdp req) (a_dongleId a).

(** From [s] to [s'] the flag is untouched and no attempt has returned. *)
Definition nothing_returned (s s' : Component) : Prop :=
  reconnecting s' = reconnecting s ∧
  ∀ t a a', attempts s !! t = Some a → attempts s' !! t = Some a' →
            a_stage a' = Returned → a_stage a = Returned.

(** While the flag is set, the attempt started last has not returned. *)
Definition busy_inv (s : Component) : Prop :=
  reconnecting s = true →
  ∃ a, last (attempts s) = Some a ∧ a_stage a ≠ Returned.

(** An entry as [ontrack] makes it: a stream of the one track it names. *)
Definition single_track (en : StreamEntry) : Prop := stream en = [label en].




(** An attempt whose [createOffer] was rejected. *)
Definition failed_once : Component :=
  run mounted [ Negotiate (Some "abc123");
                OfferRejected 0 (OtherThrown "InvalidStateError") ].

(** A second call while the first attempt waits for ICE gathering. *)
Definition two_attempts : Component :=
  run mounted [ Negotiate (Some "abc123"); OfferResolved 0 offer0;
                SetLocalResolved 0; Elapse 500%N;
                Negotiate (Some "def456"); OfferResolved 1 offer0;
                SetLocalResolved 1 ].

(** * Proofs *)

(** ** Frames: what the continuations leave alone *)

Lemma driver_frame_refl s : driver_frame s s.
Proof. by repeat split. Qed.

Lemma driver_frame_trans s1 s2 s3 :
  driver_frame s1 s2 → driver_frame s2 s3 → driver_frame s1 s3.
Proof. intros (?&?&?&?) (?&?&?&?). repeat split; congruence. Qed.

Lemma alter_stage_pcs (st : Stage) t (l : list Attempt) :
  a_pc <$> alter (λ a, {| a_pc := a_pc a; a_dongleId := a_dongleId a;
                           a_stage := st |}) t l
  = a_pc <$> l.
Proof.
  rewrite (list_fmap_alter a_pc _ id) by by apply Forall_forall.
  by apply list_alter_id.
Qed.

Lemma set_stage_frame t st s : driver_frame s (set_stage t st s).
Proof. repeat split. simpl. by rewrite alter_stage_pcs. Qed.

Lemma catch_frame t err s : driver_frame s (catch t err s).
Proof. repeat split. simpl. by rewrite alter_stage_pcs. Qed.

Lemma finish_frame t s : driver_frame s (finish t s).
Proof. repeat split. simpl. by rewrite alter_stage_pcs. Qed.

Lemma sendOffer_frame t s : driver_frame s (sendOffer t s).
Proof.
  unfold sendOffer. destruct (attempts s !! t); [|apply driver_frame_refl].
  repeat split. simpl. by rewrite alter_stage_pcs.
Qed.

Lemma iceWait_frame t s : driver_frame s (iceWait t s).
Proof.
  unfold iceWait. destruct (attempts s !! t); [|apply driver_frame_refl].
  destruct (gathering_complete _ _); [apply sendOffer_frame|].
  repeat split. simpl. by rewrite alter_stage_pcs.
Qed.

Lemma checkState_frame pc s t : driver_frame s (checkState pc s t).
Proof.
  unfold checkState. destruct (attempts s !! t) as [a|]; [|apply driver_frame_refl].
  destruct (a_stage a); try apply driver_frame_refl.
  destruct (_ && _); [apply sendOffer_frame | apply driver_frame_refl].
Qed.

Lemma timerCallback_frame s t : driver_frame s (timerCallback s t).
Proof.
  unfold timerCallback. destruct (attempts s !! t) as [a|]; [|apply driver_frame_refl].
  destruct (a_stage a); try apply driver_frame_refl. apply sendOffer_frame.
Qed.

Lemma foldl_frame (f : Component → nat → Component) (ts : list nat) s :
  (∀ s t, driver_frame s (f s t)) → driver_frame s (foldl f s ts).
Proof.
  intros Hf. revert s. induction ts as [|t ts IH]; intros s; simpl.
  - apply driver_frame_refl.
  - eapply driver_frame_trans; [apply Hf | apply IH].
Qed.

Lemma dispatch_frame pc s : driver_frame s (dispatch_icegatheringstatechange pc s).
Proof. apply foldl_frame, checkState_frame. Qed.

Lemma elapse_frame dt s : driver_frame s (elapse dt s).
Proof. by repeat split. Qed.

Lemma fireTimer_frame s : driver_frame s (fireTimer s).
Proof.
  unfold fireTimer. destruct (timers s) as [|[due t] rest]; [apply driver_frame_refl|].
  case_bool_decide; [|apply driver_frame_refl].
  eapply driver_frame_trans; [|apply timerCallback_frame]. by repeat split.
Qed.

Lemma onAthenaResponse_frame t resp s : driver_frame s (onAthenaResponse t resp s).
Proof.
  unfold onAthenaResponse.
  destruct (check_response resp) as [err|init]; [apply catch_frame|].
  destruct (new_RTCSessionDescription init); [apply catch_frame | apply set_stage_frame].
Qed.

Lemma oniceconnectionstatechange_frame pc s :
  driver_frame s (oniceconnectionstatechange pc s).
Proof.
  unfold oniceconnectionstatechange. destruct (heap s !! pc); [|apply driver_frame_refl].
  repeat case_match; by repeat split.
Qed.

(** ** Connection lifecycle *)

Lemma on_pc_closed_flags pc f s :
  keeps_closed f → closed_flags (on_pc pc f s) = closed_flags s.
Proof.
  intros Hf. unfold closed_flags, on_pc. simpl.
  rewrite (list_fmap_alter pc_closed f id) by (apply Forall_forall; intros; apply Hf).
  by apply list_alter_id.
Qed.

Lemma driver_lifecycle s s' : driver_frame s s' → lifecycle_frame s s'.
Proof. intros (?&?&Hh&?). split; [done|]. unfold closed_flags. by rewrite Hh. Qed.

Lemma lifecycle_frame_trans s1 s2 s3 :
  lifecycle_frame s1 s2 → lifecycle_frame s2 s3 → lifecycle_frame s1 s3.
Proof. intros (?&?) (?&?). split; congruence. Qed.

Lemma on_pc_lifecycle pc f s : keeps_closed f → lifecycle_frame s (on_pc pc f s).
Proof. intros Hf. split; [done|]. by apply on_pc_closed_flags. Qed.

Lemma engine_write_keeps_closed f : keeps_closed f → keeps_closed (engine_write f).
Proof. intros Hf c. unfold engine_write. destruct (pc_closed c) eqn:E; [done|]. by rewrite Hf. Qed.

Lemma on_engine_lifecycle pc f s :
  keeps_closed f → lifecycle_frame s (on_pc pc (engine_write f) s).
Proof. intros Hf. by apply on_pc_lifecycle, engine_write_keeps_closed. Qed.

Lemma step_lifecycle_frame s e :
  is_lifecycle_call e = false → lifecycle_frame s (step s e).
Proof.
  assert (Hrefl : lifecycle_frame s s) by done.
  destruct e; simpl; try done; intros _; unfold stage_of;
    repeat case_match; simplify_eq; try done.
  all: lazymatch goal with
       | |- lifecycle_frame ?s0 (on_pc _ _ ?s0) => by apply on_engine_lifecycle
       | |- lifecycle_frame ?s0 (_ (on_pc ?pc ?f ?s0)) =>
           apply (lifecycle_frame_trans _ (on_pc pc f s0));
           [by apply on_engine_lifecycle | apply driver_lifecycle]
       | |- lifecycle_frame ?s0 (_ _ (on_pc ?pc ?f ?s0)) =>
           apply (lifecycle_frame_trans _ (on_pc pc f s0));
           [by apply on_engine_lifecycle | apply driver_lifecycle]
       | |- _ => apply driver_lifecycle
       end.
  all: eauto using iceWait_frame, dispatch_frame, elapse_frame, fireTimer_frame,
         finish_frame, onAthenaResponse_frame, oniceconnectionstatechange_frame.
Qed.

Lemma lifecycle_frame_one_live s s' :
  lifecycle_frame s s' → one_live s → one_live s'.
Proof. intros [Hr Hc] Hs i. rewrite Hr, Hc. apply Hs. Qed.

Lemma disconnect_rtcConnection s : rtcConnection (disconnectRTCConnection s) = None.
Proof.
  unfold disconnectRTCConnection.
  destruct (rtcConnection s) eqn:E; simpl; done.
Qed.

Lemma disconnect_all_closed s i :
  one_live s → closed_flags (disconnectRTCConnection s) !! i ≠ Some false.
Proof.
  intros Hs Hi. unfold disconnectRTCConnection, closed_flags in Hi.
  destruct (rtcConnection s) as [pc|] eqn:E; simpl in Hi.
  - rewrite list_lookup_fmap in Hi. destruct (decide (pc = i)) as [->|Hne].
    + rewrite list_lookup_alter_eq in Hi.
      destruct (heap s !! i); simpl in Hi; discriminate || congruence.
    + rewrite list_lookup_alter_ne in Hi by done.
      rewrite <- list_lookup_fmap in Hi. apply Hs in Hi. congruence.
  - apply Hs in Hi. congruence.
Qed.

Lemma all_closed_no_live s :
  (∀ i, closed_flags s !! i ≠ Some false) → live_connections s = [].
Proof.
  unfold closed_flags, live_connections. induction (heap s) as [|c h IH]; intros H.
  - done.
  - rewrite filter_cons. destruct (decide (pc_closed c = false)) as [Hc|Hc].
    + destruct (H 0). simpl. by rewrite Hc.
    + apply IH. intros i. apply (H (S i)).
Qed.

Lemma one_live_at_most_one s : one_live s → length (live_connections s) ≤ 1.
Proof.
  unfold one_live, closed_flags, live_connections.
  generalize (rtcConnection s). induction (heap s) as [|c h IH]; intros r H.
  - simpl. lia.
  - rewrite filter_cons. destruct (decide (pc_closed c = false)) as [Hc|Hc].
    + assert (Hr : r = Some 0) by (apply H; simpl; by rewrite Hc).
      assert (Hnil : filter (λ c, pc_closed c = false) h = []).
      { apply (all_closed_no_live (set_heap h mounted)). intros i Hi.
        specialize (H (S i) Hi). congruence. }
      rewrite Hnil. simpl. lia.
    + apply (IH (Nat.pred <$> r)). intros i Hi.
      rewrite (H (S i) Hi). done.
Qed.

Lemma setup_heap d s :
  d ≠ "" →
  heap (setupRTCConnection (Some d) s)
  = heap (disconnectRTCConnection s) ++ [receiver].
Proof.
  intros Hd. unfold setupRTCConnection, setupRTCConnection_with. rewrite bool_decide_eq_false_2 by done.
  cbn [heap set_attempts setStatus on_pc set_heap set_rtcConnection setError
         setReconnecting].
  set (h := heap (disconnectRTCConnection s)).
  rewrite (alter_app_r_alt _ h) by done.
  rewrite (alter_app_r_alt _ h) by done.
  rewrite Nat.sub_diag. done.
Qed.

Lemma setup_rtcConnection d s :
  d ≠ "" →
  rtcConnection (setupRTCConnection (Some d) s)
  = Some (length (heap (disconnectRTCConnection s))).
Proof.
  intros Hd. unfold setupRTCConnection, setupRTCConnection_with. by rewrite bool_decide_eq_false_2.
Qed.

Lemma disconnect_heap_length s :
  length (heap (disconnectRTCConnection s)) = length (heap s).
Proof.
  unfold disconnectRTCConnection. destruct (rtcConnection s); simpl; [|done].
  by rewrite length_alter.
Qed.

(** The call in which the constructor throws: the reset, the status of the
    first line of the [try], and the [catch] block. *)
Lemma setup_throws d err s :
  d ≠ "" →
  setupRTCConnection_with (ConstructorThrows err) (Some d) s
  = setReconnecting false
      (setError (Some ("Failed to connect: " +:+ String_of err))
         (setStatus (Some "Initiating connection...")
            (disconnectRTCConnection s))).
Proof.
  intros Hd. unfold setupRTCConnection_with. by rewrite bool_decide_eq_false_2.
Qed.

Lemma setup_without_device made dongleId s :
  truthy dongleId = false → setupRTCConnection_with made dongleId s = s.
Proof.
  destruct dongleId as [d|]; [|done]. simpl.
  intros H%negb_false_iff%bool_decide_eq_true. by subst.
Qed.

Lemma one_live_step s e : one_live s → one_live (step s e).
Proof.
  intros Hs. destruct (is_lifecycle_call e) eqn:He.
  - destruct e; try discriminate; simpl.
    + destruct dongleId as [d|]; [|done].
      destruct (decide (d = "")) as [->|Hd]; [done|].
      intros i Hi. rewrite setup_rtcConnection by done.
      unfold closed_flags in Hi. rewrite setup_heap in Hi by done.
      rewrite fmap_app in Hi. apply lookup_app_Some in Hi as [Hi|[Hlen Hi]].
      * by apply disconnect_all_closed in Hi.
      * rewrite length_fmap in Hlen.
        apply lookup_lt_Some in Hi as Hlt.
        rewrite !length_fmap in Hlt. cbn [length] in Hlt. f_equal. lia.
    + destruct dongleId as [d|]; [|done].
      destruct (decide (d = "")) as [->|Hd]; [done|].
      rewrite setup_throws by done.
      intros i Hi. by apply (disconnect_all_closed s i) in Hi.
    + intros i Hi. by apply disconnect_all_closed in Hi.
  - eapply lifecycle_frame_one_live; [by apply step_lifecycle_frame | done].
Qed.

Lemma one_live_reachable s : reachable s → one_live s.
Proof.
  intros [es ->]. unfold run. induction es as [|e es IH] using rev_ind.
  - intros i Hi. done.
  - rewrite foldl_app. simpl. by apply one_live_step.
Qed.

Lemma driver_heap s s' : driver_frame s s' → heap s' = heap s.
Proof. by intros (_&_&?&_). Qed.

(** Outside the lifecycle manager, a step writes to the connections by
    [engine_write] only. *)
Lemma step_heap s e :
  is_lifecycle_call e = false →
  heap (step s e) = heap s
  ∨ ∃ pc f, keeps_closed f ∧ heap (step s e) = alter (engine_write f) pc (heap s).
Proof.
  destruct e; simpl; try done; intros _; unfold stage_of;
    repeat case_match; simplify_eq.
  all: try (left; done).
  all: try (left; apply driver_heap;
            eauto using elapse_frame, fireTimer_frame, onAthenaResponse_frame; fail).
  all: right;
    lazymatch goal with
    | |- context [on_pc ?pc (engine_write ?f) _] => exists pc, f
    | |- context [alter (engine_write ?f) ?pc _] => exists pc, f
    end; (split; [done|]).
  all: first [ done
             | etrans; [apply driver_heap;
                        eauto using iceWait_frame, dispatch_frame, finish_frame,
                          oniceconnectionstatechange_frame | done] ].
Qed.

Lemma engine_write_closed_ok f c :
  keeps_closed f → closed_ok c → closed_ok (engine_write f c).
Proof.
  intros Hf Hc. unfold engine_write, closed_ok.
  destruct (pc_closed c) eqn:E; [done|]. rewrite Hf, E. discriminate.
Qed.

Lemma disconnect_closed_inv s :
  closed_inv s → closed_inv (disconnectRTCConnection s).
Proof.
  intros Hs. unfold closed_inv, disconnectRTCConnection.
  destruct (rtcConnection s) as [pc|]; [|done].
  cbn [heap setStreams set_rtcConnection on_pc set_heap].
  apply Forall_alter; [done|]. by intros c _ _ _.
Qed.

Lemma closed_inv_step s e : closed_inv s → closed_inv (step s e).
Proof.
  intros Hs. destruct (is_lifecycle_call e) eqn:He.
  - destruct e; try discriminate; simpl; [| |by apply disconnect_closed_inv].
    + destruct dongleId as [d|]; [|done].
      destruct (decide (d = "")) as [->|Hd]; [done|].
      unfold closed_inv. rewrite setup_heap by done.
      apply Forall_app. split; [by apply disconnect_closed_inv|].
      apply Forall_singleton. intros Hc. discriminate.
    + destruct dongleId as [d|]; [|done].
      destruct (decide (d = "")) as [->|Hd]; [done|].
      rewrite setup_throws by done. by apply disconnect_closed_inv.
  - unfold closed_inv in *.
    destruct (step_heap s e He) as [->|(pc&f&Hf&->)]; [done|].
    apply Forall_alter; [done|]. intros c _ Hc.
    by apply engine_write_closed_ok.
Qed.

Lemma closed_inv_reachable s : reachable s → closed_inv s.
Proof.
  intros [es ->]. unfold run. induction es as [|e es IH] using rev_ind.
  - apply Forall_nil_2.
  - rewrite foldl_app. simpl. by apply closed_inv_step.
Qed.

(** A state event of a closed connection: the handler reads "closed" and
    does nothing. *)
Lemma ice_event_of_closed s pc c st :
  closed_inv s → heap s !! pc = Some c → pc_closed c = true →
  step s (IceConnectionStateChange pc st) = s.
Proof.
  intros Hs Hpc Hc.
  assert (Hst : iceConnectionState c = IceClosed).
  { by apply (Forall_lookup_1 _ _ _ _ Hs Hpc). }
  assert (Hh : alter (engine_write (pc_set_iceConnectionState st)) pc (heap s)
               = heap s).
  { apply list_eq. intros i. rewrite list_lookup_alter. case_decide; [subst|done].
    rewrite Hpc. simpl. unfold engine_write. by rewrite Hc. }
  simpl. unfold oniceconnectionstatechange, on_pc. rewrite Hh.
  cbn [heap set_heap]. rewrite Hpc, Hst. simpl. by destruct s.
Qed.

(** ** The track registry *)

Lemma driver_streams s s' : driver_frame s s' → streams s' = streams s.
Proof. by intros (?&_). Qed.

Lemma step_streams_frame s e :
  writes_streams e = false → streams (step s e) = streams s.
Proof.
  destruct e; simpl; try done; intros _; unfold stage_of;
    repeat case_match; simplify_eq; try done.
  all: erewrite driver_streams
         by eauto using iceWait_frame, dispatch_frame, elapse_frame, fireTimer_frame,
              finish_frame, onAthenaResponse_frame,
              oniceconnectionstatechange_frame.
  all: done.
Qed.

Lemma existsb_label id (prev : list StreamEntry) :
  existsb (λ e, bool_decide (label e = id)) prev = true ↔ id ∈ label <$> prev.
Proof.
  induction prev as [|e prev IH]; simpl.
  - split; [done | by intros ?%elem_of_nil].
  - rewrite orb_true_iff, IH, bool_decide_eq_true, elem_of_cons.
    split; (intros [?|?]; [by left | by right]).
Qed.

Lemma ontrack_update_seen id (prev : list StreamEntry) :
  id ∈ label <$> prev → ontrack_update id prev = prev.
Proof. intros H%existsb_label. unfold ontrack_update. by rewrite H. Qed.

Lemma ontrack_update_fresh id (prev : list StreamEntry) :
  id ∉ label <$> prev →
  ontrack_update id prev = prev ++ [{| stream := [id]; label := id |}].
Proof.
  intros H. unfold ontrack_update.
  destruct (existsb _ prev) eqn:E; [|done]. by apply existsb_label in E.
Qed.

Lemma ontrack_update_NoDup id (prev : list StreamEntry) :
  NoDup (label <$> prev) → NoDup (label <$> ontrack_update id prev).
Proof.
  intros Hnd. destruct (decide (id ∈ label <$> prev)) as [Hin|Hin].
  - by rewrite ontrack_update_seen.
  - rewrite ontrack_update_fresh by done. rewrite fmap_app. simpl.
    apply NoDup_app. split; [done|]. split.
    + intros x Hx ->%list_elem_of_singleton. done.
    + apply NoDup_singleton.
Qed.

Lemma setup_streams d s : d ≠ "" → streams (setupRTCConnection (Some d) s) = [].
Proof. intros Hd. unfold setupRTCConnection, setupRTCConnection_with. by rewrite bool_decide_eq_false_2. Qed.

Lemma step_streams_NoDup s e :
  NoDup (label <$> streams s) → NoDup (label <$> streams (step s e)).
Proof.
  intros Hs. destruct (writes_streams e) eqn:He.
  - destruct e; try discriminate; simpl.
    + destruct dongleId as [d|]; [|done].
      destruct (decide (d = "")) as [->|Hd]; [done|].
      rewrite setup_streams by done. apply NoDup_nil_2.
    + destruct dongleId as [d|]; [|done].
      destruct (decide (d = "")) as [->|Hd]; [done|].
      rewrite setup_throws by done. apply NoDup_nil_2.
    + apply NoDup_nil_2.
    + destruct (heap s !! pc); [|done]. by apply ontrack_update_NoDup.
  - by rewrite step_streams_frame.
Qed.

Lemma streams_NoDup_reachable s : reachable s → NoDup (label <$> streams s).
Proof.
  intros [es ->]. unfold run. induction es as [|e es IH] using rev_ind.
  - apply NoDup_nil_2.
  - rewrite foldl_app. simpl. by apply step_streams_NoDup.
Qed.

(** ** The ICE-gathering wait *)

Lemma sent_heap s s' a : heap s' = heap s → sent s' a = sent s a.
Proof. intros H. unfold sent, local_sdp. by rewrite H. Qed.

Lemma resolves_refl s : resolves s s.
Proof. repeat split; by left. Qed.

Lemma resolves_trans s1 s2 s3 :
  resolves s1 s2 → resolves s2 s3 → resolves s1 s3.
Proof.
  intros (Hh1&Ht1&Hn1&He1&Hr1&Hs1&HA) (Hh2&Ht2&Hn2&He2&Hr2&Hs2&HB).
  repeat split; try congruence.
  { destruct Hs2 as [[Hs2 Ha2]|Hs2]; [|by right].
    destruct Hs1 as [[Hs1 Ha1]|Hs1]; [left; split; congruence|].
    right; congruence. }
  intros t.
  destruct (HB t) as [E2|(a2&since2&Ha2&Hst2&E2)].
  - rewrite E2. destruct (HA t) as [E1|(a1&since1&Ha1&Hst1&E1)]; [by left|].
    right. by exists a1, since1.
  - destruct (HA t) as [E1|(a1&since1&Ha1&Hst1&E1)].
    + right. exists a2, since2. rewrite <- E1, E2.
      by rewrite (sent_heap s1 s2).
    + rewrite E1 in Ha2. simplify_eq.
Qed.

Lemma sendOffer_lookup t t' s :
  attempts (sendOffer t s) !! t'
  = if decide (t = t') then sent s <$> attempts s !! t' else attempts s !! t'.
Proof.
  unfold sendOffer. destruct (attempts s !! t) as [a|] eqn:E.
  - cbn [attempts set_stage set_attempts setStatus]. rewrite list_lookup_alter.
    case_decide; [|done]. subst. by rewrite E.
  - case_decide; [|done]. subst. by rewrite E.
Qed.

Lemma sendOffer_resolves t s a since :
  attempts s !! t = Some a → a_stage a = AwaitIceGathering since →
  resolves s (sendOffer t s).
Proof.
  intros Ha Hst.
  assert (E : sendOffer t s
              = set_stage t (a_stage (sent s a))
                  (setStatus (Some "Sending offer via Athena...") s)).
  { unfold sendOffer. by rewrite Ha. }
  repeat split; try (by rewrite E).
  { right. by rewrite E. }
  intros t'. rewrite sendOffer_lookup. case_decide; [|by left].
  subst. right. exists a, since. by rewrite Ha.
Qed.

Lemma checkState_resolves pc s t : resolves s (checkState pc s t).
Proof.
  unfold checkState. destruct (attempts s !! t) as [a|] eqn:E; [|apply resolves_refl].
  destruct (a_stage a) eqn:Est; try apply resolves_refl.
  destruct (_ && _); [|apply resolves_refl]. by eapply sendOffer_resolves.
Qed.

Lemma timerCallback_resolves s t : resolves s (timerCallback s t).
Proof.
  unfold timerCallback. destruct (attempts s !! t) as [a|] eqn:E; [|apply resolves_refl].
  destruct (a_stage a) eqn:Est; try apply resolves_refl.
  by eapply sendOffer_resolves.
Qed.

Lemma foldl_resolves (f : Component → nat → Component) (ts : list nat) s :
  (∀ s t, resolves s (f s t)) → resolves s (foldl f s ts).
Proof.
  intros Hf. revert s. induction ts as [|t ts IH]; intros s; simpl.
  - apply resolves_refl.
  - eapply resolves_trans; [apply Hf | apply IH].
Qed.

Lemma dispatch_resolves pc s : resolves s (dispatch_icegatheringstatechange pc s).
Proof. apply foldl_resolves, checkState_resolves. Qed.





Lemma setup_attempts d s :
  d ≠ "" →
  attempts (setupRTCConnection (Some d) s)
  = attempts s ++ [{| a_pc := length (heap s); a_dongleId := d;
                      a_stage := AwaitCreateOffer |}]
  ∧ timers (setupRTCConnection (Some d) s) = timers s
  ∧ now (setupRTCConnection (Some d) s) = now s.
Proof.
  intros Hd. unfold setupRTCConnection, setupRTCConnection_with. rewrite bool_decide_eq_false_2 by done.
  cbn [attempts timers now set_attempts setStatus on_pc set_heap
         set_rtcConnection setError setReconnecting heap].
  rewrite disconnect_heap_length.
  unfold disconnectRTCConnection. by destruct (rtcConnection s).
Qed.


Lemma setup_throws_attempts d err s :
  d ≠ "" →
  attempts (setupRTCConnection_with (ConstructorThrows err) (Some d) s) = attempts s
  ∧ timers (setupRTCConnection_with (ConstructorThrows err) (Some d) s) = timers s
  ∧ now (setupRTCConnection_with (ConstructorThrows err) (Some d) s) = now s.
Proof.
  intros Hd. rewrite setup_throws by done.
  unfold disconnectRTCConnection. by destruct (rtcConnection s).
Qed.

Lemma throws_step dongleId err s :
  step s (NegotiateThrows dongleId err)
  = if truthy dongleId
    then setReconnecting false
           (setError (Some ("Failed to connect: " +:+ String_of err))
              (setStatus (Some "Initiating connection...")
                 (disconnectRTCConnection s)))
    else s.
Proof.
  destruct (truthy dongleId) eqn:Hd; [|by apply setup_without_device].
  destruct dongleId as [d|]; [|done]. apply setup_throws.
  simpl in Hd. by apply negb_true_iff, bool_decide_eq_false in Hd.
Qed.

Lemma throws_frame dongleId err s :
  attempts (step s (NegotiateThrows dongleId err)) = attempts s
  ∧ timers (step s (NegotiateThrows dongleId err)) = timers s
  ∧ now (step s (NegotiateThrows dongleId err)) = now s
  ∧ length (heap (step s (NegotiateThrows dongleId err))) = length (heap s).
Proof.
  rewrite throws_step. destruct (truthy dongleId); [|done].
  cbn [attempts timers now heap setReconnecting setError setStatus].
  rewrite disconnect_heap_length.
  unfold disconnectRTCConnection. by destruct (rtcConnection s).
Qed.

(** The event loop runs the callback of the first timer, if it is due. *)
Lemma fireTimer_cases s :
  fireTimer s = s
  ∨ ∃ due t rest, timers s = (due, t) :: rest ∧ (due ≤ now s)%N ∧
      fireTimer s = timerCallback (set_timers rest s) t.
Proof.
  unfold fireTimer. destruct (timers s) as [|[due t] rest]; [by left|].
  case_bool_decide; [|by left]. right. by exists due, t, rest.
Qed.






Lemma gathering_complete_local pc pc' d s :
  gathering_complete pc
    (on_pc pc' (engine_write (pc_set_localDescription d)) s)
  = gathering_complete pc s.
Proof.
  unfold gathering_complete. cbn [heap on_pc set_heap].
  rewrite list_lookup_alter. case_decide; [subst|done].
  destruct (heap s !! pc) as [c|]; [|done]. simpl.
  unfold engine_write. by destruct (pc_closed c).
Qed.


Lemma elapse_now dt s : now (elapse dt s) = (now s + dt)%N.
Proof. done. Qed.


Lemma reachable_step s e : reachable s → reachable (step s e).
Proof.
  intros [es ->]. exists (es ++ [e]). unfold run. by rewrite foldl_app.
Qed.



(** ** The relay response and the [catch] block *)

Lemma catch_effect t err s :
  error (catch t err s) = Some ("Failed to connect: " +:+ String_of err) ∧
  reconnecting (catch t err s) = false ∧
  status (catch t err s) = status s ∧
  stage_of t (catch t err s) = (λ _, Returned) <$> stage_of t s.
Proof.
  repeat split. unfold stage_of, catch, set_stage. simpl.
  rewrite list_lookup_alter_eq. by destruct (attempts s !! t).
Qed.




Lemma fireTimer_resolves s :
  heap (fireTimer s) = heap s ∧ now (fireTimer s) = now s ∧
  error (fireTimer s) = error s ∧ reconnecting (fireTimer s) = reconnecting s ∧
  (status (fireTimer s) = status s
   ∨ status (fireTimer s) = Some "Sending offer via Athena...").
Proof.
  destruct (fireTimer_cases s) as [->|(due&t0&rest&Ht&Hdue&->)];
    [by repeat split; try left|].
  destruct (timerCallback_resolves (set_timers rest s) t0)
    as (->&_&->&->&->&Hst&_).
  repeat split. destruct Hst as [[-> _]| ->]; [by left | by right].
Qed.



Lemma String_of_new_Error m :
  m ≠ "" → String_of (new_Error m) = "Error: " +:+ m.
Proof.
  intros Hm. unfold String_of, new_Error.
  by rewrite (bool_decide_eq_false_2 (m = "")) by done.
Qed.

Lemma check_response_error r e :
  resp_error r = Some e → e ≠ "" → check_response (Some r) = inl (new_Error e).
Proof.
  intros He Hne. unfold check_response, truthy, js_or. rewrite He.
  by rewrite bool_decide_eq_false_2 by done.
Qed.

Lemma check_response_malformed r :
  truthy (resp_error r) = false →
  truthy (resp_sdp r) = false ∨ truthy (resp_type r) = false →
  check_response (Some r) = inl (new_Error "Invalid response from webrtcd").
Proof.
  intros He Hm. unfold check_response. rewrite He.
  by destruct Hm as [-> | ->]; [|rewrite orb_true_r].
Qed.

Lemma relay_resolved_step s t req resp :
  stage_of t s = Some (AwaitCallAthena req) →
  step s (RelayResolved t resp) = onAthenaResponse t resp s.
Proof. intros H. simpl. by rewrite H. Qed.

(** ** The scenarios, run *)

Lemma run_reachable es : reachable (run mounted es).
Proof. by exists es. Qed.

Example scenario_ready_ends :
  let s := run mounted scenario_ready in
  status s = None ∧ error s = None ∧ reconnecting s = false ∧
  stage_of 0 s = Some Returned ∧ rtcConnection s = Some 0.
Proof. vm_compute. repeat split. Qed.

Example scenario_timeout_sends_offer :
  stage_of 0
    (run mounted [ Negotiate (Some "abc123"); OfferResolved 0 offer0;
                   SetLocalResolved 0; Elapse 2000%N; TimerFires ])
  = Some (AwaitCallAthena (athena_request (Some "v=0 offer") "abc123")).
Proof. vm_compute. reflexivity. Qed.

Lemma live_after_setup d s :
  one_live s → d ≠ "" →
  live_connections (setupRTCConnection (Some d) s) = [receiver].
Proof.
  intros Hs Hd.
  assert (H : live_connections (disconnectRTCConnection s) = []).
  { apply all_closed_no_live. intros i. by apply disconnect_all_closed. }
  unfold live_connections in *. rewrite setup_heap by done.
  by rewrite filter_app, H.
Qed.

(** ** The stages of an attempt *)

Lemma reachable_invariant (P : Component → Prop) :
  P mounted → (∀ s e, reachable s → P s → P (step s e)) →
  ∀ s, reachable s → P s.
Proof.
  intros H0 Hstep s [es ->]. unfold run.
  induction es as [|e es IH] using rev_ind; [done|].
  rewrite foldl_app. simpl. apply Hstep; [apply run_reachable | done].
Qed.

Lemma alter_stage_lookup (st : Stage) t0 t (l : list Attempt) a' :
  alter (λ a, {| a_pc := a_pc a; a_dongleId := a_dongleId a; a_stage := st |})
    t0 l !! t = Some a' →
  ∃ a, l !! t = Some a ∧ a_pc a' = a_pc a ∧ a_dongleId a' = a_dongleId a ∧
       (a' = a ∨ t0 = t ∧ a_stage a' = st).
Proof.
  rewrite list_lookup_alter. case_decide as Ht.
  - subst. destruct (l !! t) as [a|]; [|done]. simpl. intros [= <-].
    exists a. repeat split. by right.
  - intros H. exists a'. repeat split; [done|]. by left.
Qed.

Lemma disconnect_attempts s :
  attempts (disconnectRTCConnection s) = attempts s.
Proof. unfold disconnectRTCConnection. by destruct (rtcConnection s). Qed.

Lemma thrown_failure s e f : failure s e = Some f → thrown s e = Some f.
Proof. unfold thrown. by intros ->. Qed.

Lemma request_of_heap s s' a : heap s' = heap s → request_of s' a = request_of s a.
Proof. intros H. unfold request_of, local_sdp. by rewrite H. Qed.

Lemma gathering_complete_heap pc s s' :
  heap s' = heap s → gathering_complete pc s' = gathering_complete pc s.
Proof. intros H. unfold gathering_complete. by rewrite H. Qed.

(** A gathering-state event resumes an attempt only when the attempt waits
    on that connection and gathering is complete there. *)
Lemma foldl_checkState_cause pc (ts : list nat) s t a :
  attempts s !! t = Some a →
  attempts (foldl (checkState pc) s ts) !! t = Some a
  ∨ (a_pc a = pc ∧ gathering_complete pc s = true
     ∧ ∃ since, a_stage a = AwaitIceGathering since)
    ∧ attempts (foldl (checkState pc) s ts) !! t = Some (sent s a).
Proof.
  revert s. induction ts as [|t0 ts IH]; intros s Ha; [by left|].
  simpl.
  assert (Hskip : checkState pc s t0 = s →
            attempts (foldl (checkState pc) (checkState pc s t0) ts) !! t = Some a
            ∨ (a_pc a = pc ∧ gathering_complete pc s = true
               ∧ ∃ since, a_stage a = AwaitIceGathering since)
              ∧ attempts (foldl (checkState pc) (checkState pc s t0) ts) !! t
                = Some (sent s a)).
  { intros ->. by apply IH. }
  unfold checkState at 2 4. unfold checkState in Hskip.
  destruct (attempts s !! t0) as [a0|] eqn:E0; [|by apply Hskip].
  destruct (a_stage a0) eqn:Est; try (by apply Hskip).
  destruct (bool_decide (a_pc a0 = pc)) eqn:Hpc; [|by apply Hskip].
  destruct (gathering_complete pc s) eqn:Hg; [|by apply Hskip].
  simpl. clear Hskip. apply bool_decide_eq_true in Hpc.
  assert (Hh : heap (sendOffer t0 s) = heap s) by apply driver_heap, sendOffer_frame.
  destruct (decide (t0 = t)) as [->|Hne].
  - right. assert (a0 = a) by congruence. subst a0.
    split; [split; [done|split; [done|by eexists]]|].
    pose proof (foldl_resolves (checkState pc) ts (sendOffer t s)
                  (checkState_resolves pc)) as (_&_&_&_&_&_&Hr).
    destruct (Hr t) as [->|(a1&?&Ha1&Hst1&_)].
    + rewrite sendOffer_lookup, decide_True by done. by rewrite Ha.
    + rewrite sendOffer_lookup, decide_True, Ha in Ha1 by done.
      simpl in Ha1. injection Ha1 as <-. discriminate.
  - assert (Ha1 : attempts (sendOffer t0 s) !! t = Some a)
      by (by rewrite sendOffer_lookup, decide_False).
    destruct (IH _ Ha1) as [H|[(?&Hg'&?) H]]; [by left|right].
    rewrite (gathering_complete_heap pc s) in Hg' by done.
    rewrite (sent_heap s) in H by done. done.
Qed.

Lemma step_set_local_heap s t a offer :
  attempts s !! t = Some a → a_stage a = AwaitSetLocalDescription offer →
  heap (step s (SetLocalResolved t))
  = heap (on_pc (a_pc a) (engine_write (pc_set_localDescription (Some offer))) s).
Proof.
  intros Ha Hst.
  change (step s (SetLocalResolved t))
    with (match attempts s !! t with
          | Some a =>
              match a_stage a with
              | AwaitSetLocalDescription offer =>
                  iceWait t
                    (on_pc (a_pc a)
                       (engine_write (pc_set_localDescription (Some offer))) s)
              | _ => s
              end
          | None => s
          end).
  rewrite Ha, Hst. apply driver_heap, iceWait_frame.
Qed.

(** Every event leaves an attempt where it is or moves it one stage on, for
    a cause; the only attempt that appears is the one a call with a device
    starts. *)
Lemma step_attempt s e t a' :
  attempts (step s e) !! t = Some a' →
  (∃ a, attempts s !! t = Some a ∧ a_pc a' = a_pc a ∧
        a_dongleId a' = a_dongleId a ∧
        (a' = a ∨ advances s t a e (a_stage a')))
  ∨ (∃ d, e = Negotiate (Some d) ∧ d ≠ "" ∧ t = length (attempts s) ∧
          a' = {| a_pc := length (heap s); a_dongleId := d;
                  a_stage := AwaitCreateOffer |}).
Proof.
  assert (Hsame : ∀ s1, attempts s1 = attempts s → attempts s1 !! t = Some a' →
            ∃ a, attempts s !! t = Some a ∧ a_pc a' = a_pc a ∧
                 a_dongleId a' = a_dongleId a ∧
                 (a' = a ∨ advances s t a e (a_stage a'))).
  { intros s1 -> H. exists a'. repeat split; [done|]. by left. }
  assert (Hfail : ∀ t0 err a0,
            attempts s !! t0 = Some a0 → a_stage a0 ≠ Returned →
            thrown s e = Some (t0, err) →
            attempts (catch t0 err s) !! t = Some a' →
            ∃ a, attempts s !! t = Some a ∧ a_pc a' = a_pc a ∧
                 a_dongleId a' = a_dongleId a ∧
                 (a' = a ∨ advances s t a e (a_stage a'))).
  { intros t0 err a0 E0 Hnot Hthrown.
    intros (a&Ha&Hpc&Hd&[->|[-> Hst]])%alter_stage_lookup; exists a;
      (repeat split; [done..|]); [by left|].
    right. rewrite Hst. simpl in Ha. simplify_eq. by eapply adv_fail. }
  destruct e; simpl.
  - (* Negotiate *)
    destruct dongleId as [d|]; [|left; by apply (Hsame s)].
    destruct (decide (d = "")) as [->|Hd]; [left; by apply (Hsame s)|].
    destruct (setup_attempts d s Hd) as (->&_&_).
    intros [H|[Hlen H]]%lookup_app_Some.
    + left. by apply (Hsame s).
    + right. exists d. apply list_lookup_singleton_Some in H as [Hz <-].
      repeat split; [done|]. lia.
  - (* NegotiateThrows *)
    intros H. left.
    apply (Hsame (setupRTCConnection_with (ConstructorThrows err) dongleId s));
      [|done].
    destruct dongleId as [d|]; [|done].
    destruct (decide (d = "")) as [->|Hd]; [done|].
    by destruct (setup_throws_attempts d err s Hd) as (->&_&_).
  - (* Teardown *)
    intros H. left. apply (Hsame (disconnectRTCConnection s)); [|done].
    apply disconnect_attempts.
  - (* OfferResolved *)
    unfold stage_of. destruct (attempts s !! t0) as [a0|] eqn:E0; simpl;
      [|left; by apply (Hsame s)].
    destruct (a_stage a0) eqn:Est; try (left; by apply (Hsame s)).
    intros (a&Ha&Hpc&Hd&[->|[-> Hst]])%alter_stage_lookup; left; exists a;
      (repeat split; [done..|]); [by left|].
    right. rewrite Hst. simplify_eq. by eapply adv_offer.
  - (* OfferRejected *)
    unfold stage_of. destruct (attempts s !! t0) as [a0|] eqn:E0; simpl;
      [|left; by apply (Hsame s)].
    destruct (a_stage a0) eqn:Est; try (left; by apply (Hsame s)).
    intros H. left. apply (Hfail t0 err a0); [done|by rewrite Est| |done].
    apply thrown_failure. simpl. unfold stage_of. by rewrite E0; simpl; rewrite Est.
  - (* SetLocalResolved *)
    destruct (attempts s !! t0) as [a0|] eqn:E0; [|left; by apply (Hsame s)].
    destruct (a_stage a0) eqn:Est; try (left; by apply (Hsame s)).
    set (s1 := on_pc (a_pc a0)
                 (engine_write (pc_set_localDescription (Some offer))) s).
    assert (Hh : heap (step s (SetLocalResolved t0)) = heap s1)
      by (by apply (step_set_local_heap s t0 a0 offer)).
    unfold iceWait. cbn [attempts on_pc set_heap s1]. rewrite E0. fold s1.
    unfold s1 at 1. rewrite gathering_complete_local.
    destruct (gathering_complete (a_pc a0) s) eqn:Hg.
    + rewrite sendOffer_lookup. cbn [attempts on_pc set_heap s1].
      destruct (decide (t0 = t)) as [->|Hne]; [|left; by apply (Hsame s)].
      rewrite E0. intros [= <-].
      left. exists a0. repeat split; [done..|]. right.
      change (a_stage (sent s1 a0)) with (AwaitCallAthena (request_of s1 a0)).
      rewrite <- (request_of_heap s1 (step s (SetLocalResolved t))) by done.
      by eapply adv_send_at_once.
    + cbn [attempts set_timers set_stage set_attempts on_pc set_heap s1].
      intros (a&Ha&Hpc&Hd&[->|[-> Hst]])%alter_stage_lookup; left; exists a;
        (repeat split; [done..|]); [by left|].
      right. rewrite Hst. simplify_eq. change (now s1) with (now s).
      by eapply adv_wait.
  - (* SetLocalRejected *)
    unfold stage_of. destruct (attempts s !! t0) as [a0|] eqn:E0; simpl;
      [|left; by apply (Hsame s)].
    destruct (a_stage a0) eqn:Est; try (left; by apply (Hsame s)).
    intros H. left. apply (Hfail t0 err a0); [done|by rewrite Est| |done].
    apply thrown_failure. simpl. unfold stage_of. by rewrite E0; simpl; rewrite Est.
  - (* CandidateGathered *)
    intros H. left. by apply (Hsame s).
  - (* GatheringStateChange *)
    set (s1 := on_pc pc (engine_write (pc_set_iceGatheringState st)) s).
    intros H. left.
    pose proof (dispatch_resolves pc s1) as (_&_&_&_&_&_&Hr).
    destruct (Hr t) as [E|(a&since&Ha&Hst&E)].
    { apply (Hsame s1); [done|]. by rewrite <- E. }
    fold s1 in H. rewrite E in H. injection H as <-.
    exists a. repeat split; [done|]. right.
    destruct (foldl_checkState_cause pc (seq 0 (length (attempts s1))) s1 t a Ha)
      as [Hno|[(Hpc&Hg&_) _]].
    { unfold dispatch_icegatheringstatechange in E. rewrite E in Hno.
      injection Hno as Hno. apply (f_equal a_stage) in Hno. simpl in Hno.
      congruence. }
    assert (Hh : heap (step s (GatheringStateChange pc st)) = heap s1)
      by apply driver_heap, dispatch_frame.
    change (a_stage (sent s1 a)) with (AwaitCallAthena (request_of s1 a)).
    rewrite <- (request_of_heap s1 (step s (GatheringStateChange pc st))) by done.
    subst pc. eapply adv_gathered; [done|].
    by rewrite (gathering_complete_heap _ s1).
  - (* Elapse *)
    intros H. left. by apply (Hsame (elapse dt s)).
  - (* TimerFires *)
    intros H. left.
    destruct (fireTimer_cases s) as [Heq|(due&t0&rest&Ht&Hdue&Heq)];
      rewrite Heq in H; [by apply (Hsame s)|].
    set (s1 := set_timers rest s).
    pose proof (timerCallback_resolves s1 t0) as (_&_&_&_&_&_&Hr).
    destruct (Hr t) as [E|(a&since&Ha&Hst&E)].
    { apply (Hsame s1); [done|]. by rewrite <- E. }
    fold s1 in H. rewrite E in H. injection H as <-.
    exists a. repeat split; [done|]. right.
    assert (t0 = t) as ->.
    { destruct (decide (t0 = t)) as [|Hne]; [done|]. exfalso.
      unfold timerCallback in E.
      destruct (attempts s1 !! t0) as [a0|] eqn:E0.
      - destruct (a_stage a0);
          try (rewrite Ha in E; injection E as E;
               apply (f_equal a_stage) in E; simpl in E; congruence).
        rewrite sendOffer_lookup, decide_False, Ha in E by done.
        injection E as E. apply (f_equal a_stage) in E. simpl in E. congruence.
      - rewrite Ha in E. injection E as E.
        apply (f_equal a_stage) in E. simpl in E. congruence. }
    change (a_stage (sent s1 a)) with (AwaitCallAthena (request_of s1 a)).
    rewrite (request_of_heap s s1) by done.
    by eapply adv_timeout.
  - (* RelayResolved *)
    unfold stage_of. destruct (attempts s !! t0) as [a0|] eqn:E0; simpl;
      [|left; by apply (Hsame s)].
    destruct (a_stage a0) eqn:Est; try (left; by apply (Hsame s)).
    unfold onAthenaResponse.
    destruct (check_response resp) as [err|init] eqn:Hc.
    { intros H. left. apply (Hfail t0 err a0); [done|by rewrite Est| |done].
      apply thrown_failure. simpl. unfold stage_of.
      by rewrite E0; simpl; rewrite Est, Hc. }
    destruct (new_RTCSessionDescription init) as [err|answer] eqn:Hn.
    { intros H. left. apply (Hfail t0 err a0); [done|by rewrite Est| |done].
      unfold thrown. simpl. unfold stage_of.
      by rewrite E0; simpl; rewrite Est, Hc, Hn. }
    destruct resp as [r|]; [|discriminate].
    intros (a&Ha&Hpc&Hd&[->|[-> Hst]])%alter_stage_lookup; left; exists a;
      (repeat split; [done..|]); [by left|].
    right. rewrite Hst. simplify_eq. by eapply adv_answer.
  - (* RelayRejected *)
    unfold stage_of. destruct (attempts s !! t0) as [a0|] eqn:E0; simpl;
      [|left; by apply (Hsame s)].
    destruct (a_stage a0) eqn:Est; try (left; by apply (Hsame s)).
    intros H. left. apply (Hfail t0 err a0); [done|by rewrite Est| |done].
    apply thrown_failure. simpl. unfold stage_of. by rewrite E0; simpl; rewrite Est.
  - (* SetRemoteResolved *)
    destruct (attempts s !! t0) as [a0|] eqn:E0; [|left; by apply (Hsame s)].
    destruct (a_stage a0) eqn:Est; try (left; by apply (Hsame s)).
    intros (a&Ha&Hpc&Hd&[->|[-> Hst]])%alter_stage_lookup; left; exists a;
      (repeat split; [done..|]); [by left|].
    right. rewrite Hst. cbn [attempts on_pc set_heap setStatus setReconnecting] in Ha.
    simplify_eq. by eapply adv_return.
  - (* SetRemoteRejected *)
    unfold stage_of. destruct (attempts s !! t0) as [a0|] eqn:E0; simpl;
      [|left; by apply (Hsame s)].
    destruct (a_stage a0) eqn:Est; try (left; by apply (Hsame s)).
    intros H. left. apply (Hfail t0 err a0); [done|by rewrite Est| |done].
    apply thrown_failure. simpl. unfold stage_of. by rewrite E0; simpl; rewrite Est.
  - (* TrackEvent *)
    intros H. left. apply (Hsame (step s (TrackEvent pc trackId))); [|done].
    simpl. by destruct (heap s !! pc).
  - (* IceConnectionStateChange *)
    intros H. left.
    apply (Hsame (step s (IceConnectionStateChange pc st))); [|done].
    simpl. unfold oniceconnectionstatechange. by repeat case_match.
Qed.

Lemma driver_pcs s s' :
  driver_frame s s' → a_pc <$> attempts s' = a_pc <$> attempts s.
Proof. by intros (_&_&_&?). Qed.

Lemma step_pcs s e :
  is_lifecycle_call e = false →
  a_pc <$> attempts (step s e) = a_pc <$> attempts s.
Proof.
  destruct e; simpl; try done; intros _; unfold stage_of;
    repeat case_match; simplify_eq; try done.
  all: erewrite driver_pcs
         by eauto using iceWait_frame, dispatch_frame, elapse_frame, fireTimer_frame,
              finish_frame, onAthenaResponse_frame, catch_frame,
              set_stage_frame, oniceconnectionstatechange_frame.
  all: done.
Qed.

Lemma step_heap_length s e :
  is_lifecycle_call e = false → length (heap (step s e)) = length (heap s).
Proof.
  intros He. destruct (step_lifecycle_frame s e He) as [_ Hc].
  apply (f_equal length) in Hc. unfold closed_flags in Hc.
  by rewrite !length_fmap in Hc.
Qed.

Lemma truthy_Some d : truthy (Some d) = true ↔ d ≠ "".
Proof.
  simpl. rewrite negb_true_iff, bool_decide_eq_false. done.
Qed.

(** Only a call with a device adds an attempt and a connection, one each. *)
Lemma step_counts s e :
  length (attempts (step s e))
  = (length (attempts s) + (if starts_attempt e then 1 else 0))%nat
  ∧ length (heap (step s e))
    = (length (heap s) + (if starts_attempt e then 1 else 0))%nat.
Proof.
  destruct (is_lifecycle_call e) eqn:He.
  - destruct e; try discriminate.
    + destruct dongleId as [d|]; [|simpl; lia].
      destruct (decide (d = "")) as [->|Hd]; [simpl; lia|].
      cbn [starts_attempt]. rewrite (proj2 (truthy_Some d) Hd).
      change (step s (Negotiate (Some d))) with (setupRTCConnection (Some d) s).
      destruct (setup_attempts d s Hd) as (->&_&_).
      rewrite setup_heap, !length_app, disconnect_heap_length by done. done.
    + cbn [starts_attempt].
      destruct (throws_frame dongleId err s) as (->&_&_&->). lia.
    + change (step s Teardown) with (disconnectRTCConnection s).
      rewrite disconnect_attempts, disconnect_heap_length. simpl. lia.
  - assert (Hs : starts_attempt e = false) by (by destruct e).
    rewrite Hs, !Nat.add_0_r. split; [|by apply step_heap_length].
    pose proof (step_pcs s e He) as Hp. apply (f_equal length) in Hp.
    by rewrite !length_fmap in Hp.
Qed.

Lemma step_attempt_forward s e t a :
  attempts s !! t = Some a →
  ∃ a', attempts (step s e) !! t = Some a' ∧ a_pc a' = a_pc a ∧
        a_dongleId a' = a_dongleId a ∧
        (a' = a ∨ advances s t a e (a_stage a')).
Proof.
  intros Ha.
  assert (Hlt : (t < length (attempts (step s e)))%nat).
  { rewrite (proj1 (step_counts s e)). apply lookup_lt_Some in Ha. lia. }
  apply lookup_lt_is_Some in Hlt as [a' Ha']. exists a'. split; [done|].
  destruct (step_attempt s e t a' Ha') as [(a0&Ha0&?&?&?)|(d&_&_&->&_)].
  - by simplify_eq.
  - apply lookup_lt_Some in Ha. lia.
Qed.

Lemma thrown_stage s e t err :
  thrown s e = Some (t, err) →
  ∃ st, stage_of t s = Some st ∧ st ≠ Returned.
Proof.
  unfold thrown, failure.
  destruct e; try done.
  all: destruct (stage_of _ s) as [[]|] eqn:E; try done.
  all: repeat case_match; try done.
  all: intros ?; simplify_eq; eexists; split; [exact E|done].
Qed.

Lemma advances_not_returned s t a e st :
  advances s t a e st → a_stage a ≠ Returned.
Proof. destruct 1; congruence. Qed.

Lemma returned_stays s e t a :
  attempts s !! t = Some a → a_stage a = Returned →
  attempts (step s e) !! t = Some a.
Proof.
  intros Ha Hst. destruct (step_attempt_forward s e t a Ha) as (a'&Ha'&_&_&[->|Hadv]);
    [done|].
  by apply advances_not_returned in Hadv.
Qed.

Lemma run_snoc s es e : run s (es ++ [e]) = step (run s es) e.
Proof. unfold run. by rewrite foldl_app. Qed.

Lemma run_returned s es t a :
  attempts s !! t = Some a → a_stage a = Returned →
  attempts (run s es) !! t = Some a.
Proof.
  intros Ha Hst. induction es as [|e es IH] using rev_ind; [done|].
  rewrite run_snoc. by apply returned_stays.
Qed.

Lemma run_counts s es :
  Forall (λ e, starts_attempt e = false) es →
  length (attempts (run s es)) = length (attempts s) ∧
  length (heap (run s es)) = length (heap s).
Proof.
  induction es as [|e es IH] using rev_ind; [done|].
  intros [Hes He]%Forall_app. apply Forall_inv in He. cbv beta in He.
  rewrite run_snoc. destruct (step_counts (run s es) e) as [-> ->]. rewrite He.
  destruct (IH Hes) as [-> ->]. lia.
Qed.

(** ** Attempts and connections go in step *)





(** ** The ref *)

Lemma ref_inv_step s e : ref_inv s → ref_inv (step s e).
Proof.
  intros Hs. destruct (is_lifecycle_call e) eqn:He.
  - destruct e; try discriminate.
    + destruct dongleId as [d|]; [|done].
      destruct (decide (d = "")) as [->|Hd]; [done|].
      change (step s (Negotiate (Some d))) with (setupRTCConnection (Some d) s).
      intros i. rewrite setup_rtcConnection by done. intros [= <-].
      unfold closed_flags. rewrite setup_heap by done.
      rewrite fmap_app, length_app. split; [|simpl; lia].
      rewrite lookup_app_r by (by rewrite length_fmap).
      by rewrite length_fmap, Nat.sub_diag.
    + rewrite throws_step. destruct (truthy dongleId); [|done].
      intros i. cbn [rtcConnection setReconnecting setError setStatus].
      by rewrite disconnect_rtcConnection.
    + change (step s Teardown) with (disconnectRTCConnection s).
      intros i. by rewrite disconnect_rtcConnection.
  - destruct (step_lifecycle_frame s e He) as [Hr Hc].
    intros i. rewrite Hr, Hc, step_heap_length by done. apply Hs.
Qed.

Lemma ref_inv_reachable s : reachable s → ref_inv s.
Proof.
  revert s. apply reachable_invariant; [done|].
  intros s e _. apply ref_inv_step.
Qed.

(** ** The transceivers *)




(** ** The relay request *)

Lemma request_inv_step s e : request_inv s → request_inv (step s e).
Proof.
  intros Hs t a' Ha'.
  destruct (step_attempt s e t a' Ha') as [(a&Ha&_&Hd&Hst)|(d&_&Hd&_&->)].
  - destruct (Hs t a Ha) as [Hne Hreq]. rewrite Hd. split; [done|].
    intros req Hr. destruct Hst as [->|Hadv]; [by apply Hreq|].
    rewrite Hr in Hadv. by inversion Hadv.
  - by split.
Qed.

Lemma request_inv_reachable s : reachable s → request_inv s.
Proof.
  revert s. apply reachable_invariant; [done|].
  intros s e _. apply request_inv_step.
Qed.

(** ** What the driver writes into error, status and the flag *)

Lemma step_error s e :
  error (step s e) = error s ∨ error_shape (error (step s e)).
Proof.
  destruct e; simpl.
  all: try (left; done).
  - (* Negotiate *)
    destruct dongleId as [d|]; [|by left].
    unfold setupRTCConnection, setupRTCConnection_with.
    destruct (bool_decide (d = "")); [by left|]. right. by left.
  - (* NegotiateThrows *)
    change (setupRTCConnection_with (ConstructorThrows err) dongleId s)
      with (step s (NegotiateThrows dongleId err)).
    rewrite throws_step. destruct (truthy dongleId); [|by left].
    right. right. right. by eexists.
  - (* Teardown *)
    left. unfold disconnectRTCConnection. by destruct (rtcConnection s).
  - (* OfferResolved *)
    left. unfold stage_of. by repeat case_match.
  - (* OfferRejected *)
    unfold stage_of. repeat case_match; try (by left).
    right. right. right. by eexists.
  - (* SetLocalResolved *)
    left. repeat case_match; try done.
    unfold iceWait, sendOffer. cbn [attempts on_pc set_heap].
    by repeat case_match.
  - (* SetLocalRejected *)
    unfold stage_of. repeat case_match; try (by left).
    right. right. right. by eexists.
  - (* GatheringStateChange *)
    left.
    by destruct (dispatch_resolves pc
                   (on_pc pc (engine_write (pc_set_iceGatheringState st)) s))
         as (_&_&_&->&_).
  - (* TimerFires *)
    left. by destruct (fireTimer_resolves s) as (_&_&->&_).
  - (* RelayResolved *)
    unfold stage_of, onAthenaResponse. repeat case_match; try (by left).
    all: right; right; right; by eexists.
  - (* RelayRejected *)
    unfold stage_of. repeat case_match; try (by left).
    right. right. right. by eexists.
  - (* SetRemoteResolved *)
    left. by repeat case_match.
  - (* SetRemoteRejected *)
    unfold stage_of. repeat case_match; try (by left).
    right. right. right. by eexists.
  - (* TrackEvent *)
    left. by repeat case_match.
  - (* IceConnectionStateChange *)
    unfold oniceconnectionstatechange. repeat case_match; try (by left).
    right. right. by left.
Qed.

Lemma step_status s e :
  status (step s e) = status s ∨ status_shape (status (step s e)).
Proof.
  assert (Hsend : status_shape (Some "Sending offer via Athena..."))
    by (right; right; by left).
  destruct e; simpl.
  all: try (left; done).
  - (* Negotiate *)
    destruct dongleId as [d|]; [|by left].
    unfold setupRTCConnection, setupRTCConnection_with.
    destruct (bool_decide (d = "")); [by left|]. right. right. by left.
  - (* NegotiateThrows *)
    change (setupRTCConnection_with (ConstructorThrows err) dongleId s)
      with (step s (NegotiateThrows dongleId err)).
    rewrite throws_step. destruct (truthy dongleId); [|by left].
    right. right. right. by right.
  - (* Teardown *)
    left. unfold disconnectRTCConnection. by destruct (rtcConnection s).
  - (* OfferResolved *)
    left. unfold stage_of. by repeat case_match.
  - (* OfferRejected *)
    left. unfold stage_of. by repeat case_match.
  - (* SetLocalResolved *)
    repeat case_match; try (by left).
    unfold iceWait, sendOffer. cbn [attempts on_pc set_heap].
    repeat case_match; try (by left). by right.
  - (* SetLocalRejected *)
    left. unfold stage_of. by repeat case_match.
  - (* GatheringStateChange *)
    destruct (dispatch_resolves pc
                (on_pc pc (engine_write (pc_set_iceGatheringState st)) s))
      as (_&_&_&_&_&[[-> _]| ->]&_); [by left|]. by right.
  - (* TimerFires *)
    destruct (fireTimer_resolves s) as (_&_&_&_&[->| ->]); [by left | by right].
  - (* RelayResolved *)
    left. unfold stage_of, onAthenaResponse. by repeat case_match.
  - (* RelayRejected *)
    left. unfold stage_of. by repeat case_match.
  - (* SetRemoteResolved *)
    repeat case_match; try (by left). right. by left.
  - (* SetRemoteRejected *)
    left. unfold stage_of. by repeat case_match.
  - (* TrackEvent *)
    left. by repeat case_match.
  - (* IceConnectionStateChange *)
    unfold oniceconnectionstatechange. repeat case_match; try (by left).
    right. by left.
Qed.

Lemma nothing_returned_same s s' :
  reconnecting s' = reconnecting s → attempts s' = attempts s →
  nothing_returned s s'.
Proof. intros Hr Ha. split; [done|]. intros t a a'. rewrite Ha. congruence. Qed.

Lemma nothing_returned_alter s s' st t0 :
  reconnecting s' = reconnecting s → st ≠ Returned →
  attempts s'
  = alter (λ a, {| a_pc := a_pc a; a_dongleId := a_dongleId a; a_stage := st |})
      t0 (attempts s) →
  nothing_returned s s'.
Proof.
  intros Hr Hst Ha. split; [done|]. intros t a a' H. rewrite Ha.
  intros (a0&Ha0&_&_&[->|[_ Hst']])%alter_stage_lookup; [congruence|].
  congruence.
Qed.

Lemma nothing_returned_resolves s s1 s' :
  reconnecting s1 = reconnecting s → attempts s1 = attempts s →
  resolves s1 s' → nothing_returned s s'.
Proof.
  intros Hr Ha (_&_&_&_&Hr'&_&Hres). split; [congruence|].
  intros t a a' H H' Hst. destruct (Hres t) as [E|(a0&?&Ha0&?&E)].
  - rewrite E, Ha in H'. congruence.
  - rewrite E in H'. injection H' as <-. discriminate.
Qed.

(** A step that returns an attempt clears the flag. *)
Lemma step_returns s e :
  reconnecting (step s e) = false ∨ starts_attempt e = true
  ∨ nothing_returned s (step s e).
Proof.
  assert (Hrefl : nothing_returned s s) by (by apply nothing_returned_same).
  destruct e; simpl.
  - (* Negotiate *)
    destruct dongleId as [d|]; [|by right; right].
    destruct (decide (d = "")) as [->|Hd]; [by right; right|].
    right; left. by apply truthy_Some.
  - (* NegotiateThrows *)
    change (setupRTCConnection_with (ConstructorThrows err) dongleId s)
      with (step s (NegotiateThrows dongleId err)).
    rewrite throws_step. destruct (truthy dongleId); [by left|by right; right].
  - (* Teardown *)
    right; right. apply nothing_returned_same; [|apply disconnect_attempts].
    unfold disconnectRTCConnection. by destruct (rtcConnection s).
  - (* OfferResolved *)
    right; right. unfold stage_of. repeat case_match; try done.
    eapply nothing_returned_alter; [reflexivity| |reflexivity]; done.
  - (* OfferRejected *)
    unfold stage_of. repeat case_match; try (by right; right). by left.
  - (* SetLocalResolved *)
    right; right. destruct (attempts s !! t) as [a|] eqn:E; [|done].
    destruct (a_stage a); try done. unfold iceWait.
    cbn [attempts on_pc set_heap]. rewrite E.
    destruct (gathering_complete _ _).
    + unfold sendOffer. cbn [attempts on_pc set_heap]. rewrite E.
      eapply nothing_returned_alter; [reflexivity| |reflexivity]; done.
    + eapply nothing_returned_alter; [reflexivity| |reflexivity]; done.
  - (* SetLocalRejected *)
    unfold stage_of. repeat case_match; try (by right; right). by left.
  - (* CandidateGathered *)
    by right; right.
  - (* GatheringStateChange *)
    right; right.
    by eapply (nothing_returned_resolves s
                 (on_pc pc (engine_write (pc_set_iceGatheringState st)) s));
      [..|apply dispatch_resolves].
  - (* Elapse *)
    by right; right.
  - (* TimerFires *)
    right; right.
    destruct (fireTimer_cases s) as [->|(due&t0&rest&Ht&Hdue&->)]; [done|].
    by eapply (nothing_returned_resolves s (set_timers rest s));
      [..|apply timerCallback_resolves].
  - (* RelayResolved *)
    unfold stage_of, onAthenaResponse.
    repeat case_match; try (by right; right); try (by left).
    right; right. eapply nothing_returned_alter; [reflexivity| |reflexivity]; done.
  - (* RelayRejected *)
    unfold stage_of. repeat case_match; try (by right; right). by left.
  - (* SetRemoteResolved *)
    repeat case_match; try (by right; right). by left.
  - (* SetRemoteRejected *)
    unfold stage_of. repeat case_match; try (by right; right). by left.
  - (* TrackEvent *)
    right; right. by destruct (heap s !! pc).
  - (* IceConnectionStateChange *)
    right; right. unfold oniceconnectionstatechange.
    cbn [heap on_pc set_heap]. by repeat case_match.
Qed.

Lemma busy_inv_step s e : busy_inv s → busy_inv (step s e).
Proof.
  intros Hs Hr. destruct (starts_attempt e) eqn:Hst.
  { destruct e; try discriminate. destruct dongleId as [d|]; [|discriminate].
    apply truthy_Some in Hst.
    change (step s (Negotiate (Some d))) with (setupRTCConnection (Some d) s).
    destruct (setup_attempts d s Hst) as (->&_&_).
    rewrite last_snoc. by eexists. }
  destruct (step_returns s e) as [Hf|[Hst'|[Hsame Hnone]]]; [congruence..|].
  rewrite Hsame in Hr. destruct (Hs Hr) as (a&Ha&Hnot).
  rewrite last_lookup in Ha.
  destruct (step_attempt_forward s e _ a Ha) as (a'&Ha'&_&_&_).
  assert (Hlen : length (attempts (step s e)) = length (attempts s)).
  { rewrite (proj1 (step_counts s e)), Hst. lia. }
  exists a'. rewrite last_lookup, Hlen. split; [done|].
  intros Hret. apply Hnot. by eapply Hnone.
Qed.

(** ** The track registry between resets *)

Lemma ontrack_update_prefix id (prev : list StreamEntry) :
  prev `prefix_of` ontrack_update id prev.
Proof.
  unfold ontrack_update. destruct (existsb _ prev); [done|].
  by apply prefix_app_r.
Qed.

Lemma step_streams_prefix s e :
  is_lifecycle_call e = false → streams s `prefix_of` streams (step s e).
Proof.
  intros He. destruct (writes_streams e) eqn:Hw.
  - destruct e; try discriminate. simpl.
    destruct (heap s !! pc); [|done]. apply ontrack_update_prefix.
  - by rewrite step_streams_frame.
Qed.

Lemma step_single_track s e :
  Forall single_track (streams s) → Forall single_track (streams (step s e)).
Proof.
  intros Hs. destruct (writes_streams e) eqn:Hw.
  - destruct e; try discriminate; simpl.
    + destruct dongleId as [d|]; [|done].
      destruct (decide (d = "")) as [->|Hd]; [done|].
      by rewrite setup_streams.
    + change (setupRTCConnection_with (ConstructorThrows err) dongleId s)
        with (step s (NegotiateThrows dongleId err)).
      rewrite throws_step. by destruct (truthy dongleId).
    + done.
    + destruct (heap s !! pc); [|done]. simpl. unfold ontrack_update.
      destruct (existsb _ _); [done|]. apply Forall_app. split; [done|].
      by apply Forall_singleton.
  - by rewrite step_streams_frame.
Qed.

(** ** The timers *)

Lemma StronglySorted_filter_2 {A} (R : relation A) (P : A → Prop)
    `{∀ x, Decision (P x)} (l : list A) :
  StronglySorted R l → StronglySorted R (filter P l).
Proof.
  induction 1 as [|x l Hl IH Hx]; [constructor|].
  rewrite filter_cons. case_decide; [|done]. constructor; [done|].
  apply Forall_forall. intros y [_ Hy]%list_elem_of_filter.
  by apply (proj1 (Forall_forall _ _) Hx).
Qed.



(** ** The effect and the button *)

Lemma disconnect_idempotent s :
  disconnectRTCConnection (disconnectRTCConnection s) = disconnectRTCConnection s.
Proof.
  unfold disconnectRTCConnection.
  destruct (rtcConnection s) eqn:E; simpl; by rewrite ?E.
Qed.

Lemma setup_after_disconnect dongleId s :
  setupRTCConnection dongleId (disconnectRTCConnection s)
  = if truthy dongleId then setupRTCConnection dongleId s
    else disconnectRTCConnection s.
Proof.
  destruct dongleId as [d|]; [|done].
  destruct (decide (d = "")) as [->|Hd]; [done|].
  rewrite (proj2 (truthy_Some d) Hd).
  unfold setupRTCConnection, setupRTCConnection_with. rewrite !bool_decide_eq_false_2 by done.
  by rewrite disconnect_idempotent.
Qed.


Lemma and_div_shape (v : option string) : v ≠ Some "" → and_div v = v.
Proof.
  unfold and_div, truthy. destruct v as [x|]; [|done].
  intros Hx. destruct (decide (x = "")) as [->|Hne]; [done|].
  by rewrite bool_decide_eq_false_2.
Qed.

(** ** A whole negotiation *)





Lemma step_rtcConnection s e :
  is_lifecycle_call e = false → rtcConnection (step s e) = rtcConnection s.
Proof. intros He. by destruct (step_lifecycle_frame s e He). Qed.

Lemma run_cons s e es : run s (e :: es) = run (step s e) es.
Proof. done. Qed.




Lemma busy_inv_reachable s : reachable s → busy_inv s.
Proof.
  revert s. apply reachable_invariant; [done|].
  intros s e _. apply busy_inv_step.
Qed.


Lemma error_shape_reachable s : reachable s → error_shape (error s).
Proof.
  revert s. apply reachable_invariant; [by left|].
  intros s e _ Hs. by destruct (step_error s e) as [-> | ?].
Qed.

Lemma status_shape_reachable s : reachable s → status_shape (status s).
Proof.
  revert s. apply reachable_invariant; [by left|].
  intros s e _ Hs. by destruct (step_status s e) as [-> | ?].
Qed.

Lemma single_track_reachable s : reachable s → Forall single_track (streams s).
Proof.
  revert s. apply reachable_invariant; [by apply Forall_nil_2|].
  intros s e _. apply step_single_track.
Qed.

Lemma run_streams_prefix s es :
  Forall (λ e, is_lifecycle_call e = false) es →
  streams s `prefix_of` streams (run s es).
Proof.
  induction es as [|e es IH] using rev_ind; [done|].
  intros [Hes He]%Forall_app. apply Forall_inv in He. cbv beta in He.
  rewrite run_snoc. etrans; [by apply IH|]. by apply step_streams_prefix.
Qed.

Lemma live_single s i c :
  one_live s → heap s !! i = Some c → pc_closed c = false →
  live_connections s = [c].
Proof.
  intros Hs Hi Hc.
  assert (Hin : c ∈ live_connections s).
  { apply list_elem_of_filter. split; [done|]. by eapply list_elem_of_lookup_2. }
  pose proof (one_live_at_most_one s Hs) as Hlen.
  destruct (live_connections s) as [|x [|y l]]; simpl in Hlen.
  - by apply elem_of_nil in Hin.
  - by apply list_elem_of_singleton in Hin as ->.
  - lia.
Qed.

Lemma no_ref_no_live s :
  one_live s → rtcConnection s = None → live_connections s = [].
Proof.
  intros Hs Hr. apply all_closed_no_live. intros i Hi.
  apply Hs in Hi. congruence.
Qed.

Lemma error_shape_not_empty v : error_shape v → v ≠ Some "".
Proof. intros [->|[->|[text ->]]]; done. Qed.

Lemma status_shape_not_empty v : status_shape v → v ≠ Some "".
Proof. intros [->|[->|[->| ->]]]; done. Qed.

Lemma click_disabled d s : reconnecting s = true → click d s = s.
Proof. intros H. unfold click. simpl. by rewrite H. Qed.

(** ** The timers, run *)






(** ** The status after a constructor that throws *)

Lemma step_status_cause s e :
  status (step s e) = status s
  ∨ status (step s e) ≠ Some "Initiating connection..."
  ∨ ∃ d err, e = NegotiateThrows (Some d) err ∧ d ≠ "".
Proof.
  destruct e; simpl.
  all: try (left; done).
  - (* Negotiate *)
    destruct dongleId as [d|]; [|by left].
    unfold setupRTCConnection, setupRTCConnection_with.
    destruct (bool_decide (d = "")); [by left|]. right. by left.
  - (* NegotiateThrows *)
    destruct dongleId as [d|]; [|by left].
    destruct (decide (d = "")) as [->|Hd]; [by left|].
    right. right. by exists d, err.
  - (* Teardown *)
    left. unfold disconnectRTCConnection. by destruct (rtcConnection s).
  - (* OfferResolved *)
    left. unfold stage_of. by repeat case_match.
  - (* OfferRejected *)
    left. unfold stage_of. by repeat case_match.
  - (* SetLocalResolved *)
    repeat case_match; try (by left).
    unfold iceWait, sendOffer. cbn [attempts on_pc set_heap].
    repeat case_match; try (by left). right. by left.
  - (* SetLocalRejected *)
    left. unfold stage_of. by repeat case_match.
  - (* GatheringStateChange *)
    destruct (dispatch_resolves pc
                (on_pc pc (engine_write (pc_set_iceGatheringState st)) s))
      as (_&_&_&_&_&[[-> _]| ->]&_); [by left|]. right. by left.
  - (* TimerFires *)
    destruct (fireTimer_resolves s) as (_&_&_&_&[->| ->]); [by left|].
    right. by left.
  - (* RelayResolved *)
    left. unfold stage_of, onAthenaResponse. by repeat case_match.
  - (* RelayRejected *)
    left. unfold stage_of. by repeat case_match.
  - (* SetRemoteResolved *)
    repeat case_match; try (by left). right. by left.
  - (* SetRemoteRejected *)
    left. unfold stage_of. by repeat case_match.
  - (* TrackEvent *)
    left. by repeat case_match.
  - (* IceConnectionStateChange *)
    unfold oniceconnectionstatechange. repeat case_match; try (by left).
    right. by left.
Qed.

(** What writes the error: a [catch] block, the reset at the start of a
    call, or the ICE handler of an open connection. *)
Lemma step_error_cause s e :
  closed_inv s →
  error (step s e) = error s
  ∨ (∃ text, error (step s e) = Some ("Failed to connect: " +:+ text))
  ∨ starts_attempt e = true
  ∨ ∃ pc st c, e = IceConnectionStateChange pc st ∧ heap s !! pc = Some c ∧
               pc_closed c = false.
Proof.
  intros Hinv. destruct e; simpl.
  all: try (left; done).
  - (* Negotiate *)
    destruct dongleId as [d|]; [|by left].
    destruct (decide (d = "")) as [->|Hd]; [by left|].
    right. right. left. by apply truthy_Some.
  - (* NegotiateThrows *)
    change (setupRTCConnection_with (ConstructorThrows err) dongleId s)
      with (step s (NegotiateThrows dongleId err)).
    rewrite throws_step. destruct (truthy dongleId); [|by left].
    right. left. by eexists.
  - (* Teardown *)
    left. unfold disconnectRTCConnection. by destruct (rtcConnection s).
  - (* OfferResolved *)
    left. unfold stage_of. by repeat case_match.
  - (* OfferRejected *)
    unfold stage_of. repeat case_match; try (by left).
    right. left. by eexists.
  - (* SetLocalResolved *)
    left. repeat case_match; try done.
    unfold iceWait, sendOffer. cbn [attempts on_pc set_heap].
    by repeat case_match.
  - (* SetLocalRejected *)
    unfold stage_of. repeat case_match; try (by left).
    right. left. by eexists.
  - (* GatheringStateChange *)
    left.
    by destruct (dispatch_resolves pc
                   (on_pc pc (engine_write (pc_set_iceGatheringState st)) s))
         as (_&_&_&->&_).
  - (* TimerFires *)
    left. by destruct (fireTimer_resolves s) as (_&_&->&_).
  - (* RelayResolved *)
    unfold stage_of, onAthenaResponse. repeat case_match; try (by left).
    all: right; left; by eexists.
  - (* RelayRejected *)
    unfold stage_of. repeat case_match; try (by left).
    right. left. by eexists.
  - (* SetRemoteResolved *)
    left. by repeat case_match.
  - (* SetRemoteRejected *)
    unfold stage_of. repeat case_match; try (by left).
    right. left. by eexists.
  - (* TrackEvent *)
    left. by repeat case_match.
  - (* IceConnectionStateChange *)
    destruct (heap s !! pc) as [c|] eqn:Hpc.
    + destruct (pc_closed c) eqn:Hc.
      * left. change (error (step s (IceConnectionStateChange pc st)) = error s).
        by erewrite ice_event_of_closed.
      * right. right. right. by exists pc, st, c.
    + left. unfold oniceconnectionstatechange. cbn [heap on_pc set_heap].
      by rewrite list_lookup_alter_eq, Hpc.
Qed.

Lemma initiating_inv_step s e :
  reachable s → initiating_inv s → initiating_inv (step s e).
Proof.
  intros Hs Hinv Hst.
  destruct (step_status_cause s e) as [Hsame|[Hne|(d&err&->&Hd)]]; [|done|].
  2:{ rewrite throws_step, (proj2 (truthy_Some d) Hd).
      split; [done|]. split; [|by eexists].
      cbn [rtcConnection setReconnecting setError setStatus].
      apply disconnect_rtcConnection. }
  rewrite Hsame in Hst. destruct (Hinv Hst) as (Hrec&Href&text&Herr).
  assert (Hnot : starts_attempt e = false).
  { destruct (starts_attempt e) eqn:Hsa; [|done].
    destruct e; try discriminate. destruct dongleId as [d|]; [|discriminate].
    apply truthy_Some in Hsa. rewrite <- Hsame in Hst. simpl in Hst.
    unfold setupRTCConnection, setupRTCConnection_with in Hst.
    rewrite bool_decide_eq_false_2 in Hst by done. discriminate. }
  split; [|split].
  - destruct (step_returns s e) as [Hf|[Hsa|[Hr _]]]; [done|congruence|congruence].
  - destruct (is_lifecycle_call e) eqn:Hl; [|by rewrite step_rtcConnection].
    destruct e; try discriminate.
    + destruct dongleId as [d|]; [|done]. simpl in Hnot.
      apply negb_false_iff, bool_decide_eq_true in Hnot. by subst.
    + rewrite throws_step. destruct (truthy dongleId); [|done].
      cbn [rtcConnection setReconnecting setError setStatus].
      apply disconnect_rtcConnection.
    + apply disconnect_rtcConnection.
  - destruct (step_error_cause s e (closed_inv_reachable s Hs))
      as [->|[?|[?|(pc&st&c&->&Hpc&Hc)]]]; [by eexists|done|congruence|].
    exfalso. pose proof (one_live_reachable s Hs pc) as Hone.
    unfold closed_flags in Hone. rewrite list_lookup_fmap, Hpc in Hone.
    simpl in Hone. rewrite Hc in Hone. specialize (Hone eq_refl). congruence.
Qed.

Lemma initiating_inv_reachable s : reachable s → initiating_inv s.
Proof.
  revert s. apply reachable_invariant; [done|].
  intros s e. apply initiating_inv_step.
Qed.


(** * The claims *)

(** C1. Whatever calls and events came before, also with attempts still in
    flight, at most one connection is not closed.  A call of
    [setupRTCConnection] with a device first closes the connection held
    (nothing is live after its [disconnectRTCConnection]), then creates one
    connection, the only live one, and stores it in the ref; teardown
    leaves no live connection. *)
Theorem at_most_one_live_connection (s : Component) (d : string) :
  reachable s → d ≠ "" →
  (length (live_connections s) ≤ 1)%nat
  ∧ live_connections (disconnectRTCConnection s) = []
  ∧ heap (step s (Negotiate (Some d)))
    = heap (disconnectRTCConnection s) ++ [receiver]
  ∧ live_connections (step s (Negotiate (Some d))) = [receiver]
  ∧ rtcConnection (step s (Negotiate (Some d))) = Some (length (heap s))
  ∧ live_connections (step s Teardown) = []
  ∧ rtcConnection (step s Teardown) = None.
Proof.
  intros Hs%one_live_reachable Hd.
  assert (Hnone : live_connections (disconnectRTCConnection s) = []).
  { apply all_closed_no_live. intros i. by apply disconnect_all_closed. }
  split; [by apply one_live_at_most_one|]. split; [done|].
  split; [by apply setup_heap|]. split; [by apply live_after_setup|].
  split; [|split; [done | apply disconnect_rtcConnection]].
  change (step s (Negotiate (Some d))) with (setupRTCConnection (Some d) s).
  rewrite setup_rtcConnection by done. by rewrite disconnect_heap_length.
Qed.

Lemma at_most_one_live_connection_witness :
  reachable in_flight ∧ "def456" ≠ "" ∧
  (length (live_connections in_flight) ≤ 1)%nat
  ∧ live_connections (disconnectRTCConnection in_flight) = []
  ∧ heap (step in_flight (Negotiate (Some "def456")))
    = heap (disconnectRTCConnection in_flight) ++ [receiver]
  ∧ live_connections (step in_flight (Negotiate (Some "def456"))) = [receiver]
  ∧ rtcConnection (step in_flight (Negotiate (Some "def456")))
    = Some (length (heap in_flight))
  ∧ live_connections (step in_flight Teardown) = []
  ∧ rtcConnection (step in_flight Teardown) = None.
Proof.
  assert (H1 : reachable in_flight) by apply run_reachable.
  assert (H2 : "def456" ≠ "") by discriminate.
  exact (conj H1 (conj H2 (at_most_one_live_connection in_flight "def456" H1 H2))).
Defined.

(** C2. Whatever track events came before, no two entries of the track
    registry carry the same track identifier, and an event whose track
    identifier is already in the registry leaves the registry as it is. *)
Theorem track_registry_has_no_duplicates (s : Component) (pc : nat) (id : string) :
  reachable s →
  NoDup (label <$> streams s)
  ∧ NoDup (label <$> streams (step s (TrackEvent pc id)))
  ∧ (id ∈ label <$> streams s → streams (step s (TrackEvent pc id)) = streams s).
Proof.
  intros Hs%streams_NoDup_reachable. split; [done|].
  split; [by apply step_streams_NoDup|].
  intros Hin. simpl. destruct (heap s !! pc); [|done].
  simpl. by apply ontrack_update_seen.
Qed.

Lemma track_registry_has_no_duplicates_witness :
  reachable one_track ∧
  "track-1" ∈ label <$> streams one_track ∧
  streams (step one_track (TrackEvent 0 "track-1")) = streams one_track.
Proof.
  assert (H1 : reachable one_track) by apply run_reachable.
  assert (H2 : "track-1" ∈ label <$> streams one_track)
    by (vm_compute; apply list_elem_of_here).
  destruct (track_registry_has_no_duplicates one_track 0 "track-1" H1)
    as (_&_&H).
  exact (conj H1 (conj H2 (H H2))).
Defined.

(** C3, as stated, fails: the handlers have no staleness guard.  After
    teardown nothing is live and the registry is empty, yet a track event of
    the torn-down connection 0 puts an entry into the registry. *)
Lemma stale_track_event_changes_registry :
  rtcConnection torn_down = None ∧ live_connections torn_down = [] ∧
  streams torn_down = [] ∧
  streams (step torn_down (TrackEvent 0 "track-1")) ≠ streams torn_down.
Proof. vm_compute. repeat split. discriminate. Qed.

(** C3, amended.  Teardown, and the reset at the start of a call of
    [setupRTCConnection], leave no live connection, an empty ref and an
    empty track registry.  An ICE-state event of a closed connection changes
    nothing: the handler reads the state "closed" and ignores it.  The
    handlers do not look at the ref: a track event of any connection ever
    created, torn down or not, runs the registry update. *)
Theorem teardown_empties_registry_handlers_unguarded
    (s : Component) (d : string) (pc : nat) (c : RTCPeerConnection)
    (id : string) (st : RTCIceConnectionState) :
  reachable s → d ≠ "" → heap s !! pc = Some c →
  (streams (step s Teardown) = [] ∧ rtcConnection (step s Teardown) = None ∧
   live_connections (step s Teardown) = [])
  ∧ (streams (disconnectRTCConnection s) = [] ∧
     live_connections (disconnectRTCConnection s) = [] ∧
     streams (step s (Negotiate (Some d))) = [])
  ∧ streams (step s (TrackEvent pc id)) = ontrack_update id (streams s)
  ∧ (pc_closed c = true → step s (IceConnectionStateChange pc st) = s).
Proof.
  intros Hs Hd Hpc. pose proof (one_live_reachable s Hs) as Hone.
  assert (Hnone : live_connections (disconnectRTCConnection s) = []).
  { apply all_closed_no_live. intros i. by apply disconnect_all_closed. }
  split; [by split; [|split; [apply disconnect_rtcConnection|]]|].
  split; [by split; [|split; [|apply setup_streams]]|].
  split; [simpl; by rewrite Hpc|].
  intros Hc. eapply ice_event_of_closed; [by apply closed_inv_reachable|done..].
Qed.

Lemma teardown_empties_registry_handlers_unguarded_witness :
  reachable torn_down ∧ "def456" ≠ "" ∧
  heap torn_down !! 0%nat = Some (pc_close receiver) ∧
  rtcConnection torn_down = None ∧
  streams (step torn_down (TrackEvent 0 "track-1"))
  = ontrack_update "track-1" (streams torn_down) ∧
  step torn_down (IceConnectionStateChange 0 IceFailed) = torn_down.
Proof.
  assert (H1 : reachable torn_down) by apply run_reachable.
  assert (H2 : "def456" ≠ "") by discriminate.
  assert (H3 : heap torn_down !! 0%nat = Some (pc_close receiver)) by reflexivity.
  destruct (teardown_empties_registry_handlers_unguarded torn_down "def456" 0
              (pc_close receiver) "track-1" IceFailed H1 H2 H3)
    as (_&_&Ht&He).
  exact (conj H1 (conj H2 (conj H3 (conj eq_refl (conj Ht (He eq_refl)))))).
Defined.

(** C4, as stated, fails: the relay answers with the error field
    "device offline", and the error of the session is that text behind the
    prefix of the [catch] block and the name of the error object. *)
Lemma relay_error_is_not_verbatim :
  stage_of 0 awaiting_relay
  = Some (AwaitCallAthena (athena_request (Some "v=0 offer") "abc123")) ∧
  resp_error device_offline = Some "device offline" ∧
  error (step awaiting_relay (RelayResolved 0 (Some device_offline)))
  = Some "Failed to connect: Error: device offline" ∧
  error (step awaiting_relay (RelayResolved 0 (Some device_offline)))
  ≠ Some "device offline".
Proof. vm_compute. repeat split. discriminate. Qed.

(** C4, amended.  If the relay response carries a non-empty error field, the
    attempt ends failed, and the error of the session is
    "Failed to connect: Error: " followed by exactly that error text. *)
Theorem relay_error_field_is_surfaced
    (s : Component) (t : nat) (req : AthenaRequest) (r : AthenaResponse)
    (e : string) :
  stage_of t s = Some (AwaitCallAthena req) →
  resp_error r = Some e → e ≠ "" →
  error (step s (RelayResolved t (Some r)))
  = Some ("Failed to connect: Error: " +:+ e)
  ∧ reconnecting (step s (RelayResolved t (Some r))) = false
  ∧ stage_of t (step s (RelayResolved t (Some r))) = Some Returned.
Proof.
  intros Hst He Hne. rewrite (relay_resolved_step _ _ req) by done.
  unfold onAthenaResponse. rewrite (check_response_error r e) by done.
  destruct (catch_effect t (new_Error e) s) as (Herr&Hrec&_&Hstage).
  rewrite Herr, Hrec, Hstage, Hst, String_of_new_Error by done. done.
Qed.

Lemma relay_error_field_is_surfaced_witness :
  stage_of 0 awaiting_relay
  = Some (AwaitCallAthena (athena_request (Some "v=0 offer") "abc123")) ∧
  error (step awaiting_relay (RelayResolved 0 (Some device_offline)))
  = Some ("Failed to connect: Error: " +:+ "device offline").
Proof.
  assert (H1 : stage_of 0 awaiting_relay
               = Some (AwaitCallAthena (athena_request (Some "v=0 offer") "abc123")))
    by reflexivity.
  assert (H2 : "device offline" ≠ "") by discriminate.
  exact (conj H1 (proj1 (relay_error_field_is_surfaced awaiting_relay 0 _
                           device_offline "device offline" H1 eq_refl H2))).
Defined.

(** C5, as stated, fails: the error field is checked before sdp and type.
    The response below lacks both sdp and type and carries an error field;
    the error of the session is built from the error field, not from the
    invalid-response message. *)
Lemma error_field_wins_over_missing_answer :
  resp_sdp device_offline = None ∧ resp_type device_offline = None ∧
  error (step awaiting_relay (RelayResolved 0 (Some device_offline)))
  = Some "Failed to connect: Error: device offline" ∧
  error (step awaiting_relay (RelayResolved 0 (Some device_offline)))
  ≠ Some "Failed to connect: Error: Invalid response from webrtcd".
Proof. vm_compute. repeat split. discriminate. Qed.

(** C5, amended.  For every relay response without sdp or without type, the
    attempt ends failed; the error of the session is the invalid-response
    message when the error field is absent or empty, and the text of the
    error field, which is checked first, when it is not. *)
Theorem malformed_response_fails
    (s : Component) (t : nat) (req : AthenaRequest) (r : AthenaResponse) :
  stage_of t s = Some (AwaitCallAthena req) →
  truthy (resp_sdp r) = false ∨ truthy (resp_type r) = false →
  error (step s (RelayResolved t (Some r)))
  = Some ("Failed to connect: Error: " +:+
            (if truthy (resp_error r) then default "" (resp_error r)
             else "Invalid response from webrtcd"))
  ∧ reconnecting (step s (RelayResolved t (Some r))) = false
  ∧ stage_of t (step s (RelayResolved t (Some r))) = Some Returned.
Proof.
  intros Hst Hm. rewrite (relay_resolved_step _ _ req) by done.
  unfold onAthenaResponse. destruct (truthy (resp_error r)) eqn:He.
  - destruct (resp_error r) as [e|] eqn:Ee; [|done].
    assert (Hne : e ≠ "").
    { intros ->. discriminate He. }
    rewrite (check_response_error r e) by done.
    destruct (catch_effect t (new_Error e) s) as (Herr&Hrec&_&Hstage).
    rewrite Herr, Hrec, Hstage, Hst, String_of_new_Error by done. done.
  - rewrite check_response_malformed by done.
    destruct (catch_effect t (new_Error "Invalid response from webrtcd") s)
      as (Herr&Hrec&_&Hstage).
    rewrite Herr, Hrec, Hstage, Hst. done.
Qed.

Lemma malformed_response_fails_witness :
  stage_of 0 awaiting_relay
  = Some (AwaitCallAthena (athena_request (Some "v=0 offer") "abc123")) ∧
  error (step awaiting_relay (RelayResolved 0 (Some no_answer)))
  = Some "Failed to connect: Error: Invalid response from webrtcd".
Proof.
  assert (H1 : stage_of 0 awaiting_relay
               = Some (AwaitCallAthena (athena_request (Some "v=0 offer") "abc123")))
    by reflexivity.
  assert (H2 : truthy (resp_sdp no_answer) = false
               ∨ truthy (resp_type no_answer) = false) by (left; reflexivity).
  exact (conj H1 (proj1 (malformed_response_fails awaiting_relay 0 _
                           no_answer H1 H2))).
Defined.




(** C7, as stated, fails: on "connected" the handler clears the status
    only.  The error an earlier "disconnected" has set is still there. *)
Lemma connected_keeps_error :
  error ice_disconnected = Some "Connection failed" ∧
  error (step ice_disconnected (IceConnectionStateChange 0 IceConnected))
  = Some "Connection failed" ∧
  error (step ice_disconnected (IceConnectionStateChange 0 IceConnected))
  ≠ None.
Proof. vm_compute. repeat split. discriminate. Qed.

(** C7, amended.  When an ICE-connection-state event of an open connection
    reports "connected" or "completed", the handler clears the status and
    leaves the error as it is; when it reports "failed" or "disconnected",
    the handler sets the error to "Connection failed" and leaves the status
    as it is.  In no case does it start a negotiation, create or close a
    connection, or touch the track registry or the reconnecting flag. *)
Theorem ice_state_handler
    (s : Component) (pc : nat) (c : RTCPeerConnection)
    (st : RTCIceConnectionState) :
  heap s !! pc = Some c → pc_closed c = false →
  (st = IceConnected ∨ st = IceCompleted →
     status (step s (IceConnectionStateChange pc st)) = None ∧
     error (step s (IceConnectionStateChange pc st)) = error s)
  ∧ (st = IceFailed ∨ st = IceDisconnected →
       error (step s (IceConnectionStateChange pc st)) = Some "Connection failed" ∧
       status (step s (IceConnectionStateChange pc st)) = status s)
  ∧ attempts (step s (IceConnectionStateChange pc st)) = attempts s
  ∧ rtcConnection (step s (IceConnectionStateChange pc st)) = rtcConnection s
  ∧ closed_flags (step s (IceConnectionStateChange pc st)) = closed_flags s
  ∧ streams (step s (IceConnectionStateChange pc st)) = streams s
  ∧ reconnecting (step s (IceConnectionStateChange pc st)) = reconnecting s.
Proof.
  intros Hpc Hopen.
  destruct (step_lifecycle_frame s (IceConnectionStateChange pc st) eq_refl)
    as [Hr Hc].
  split; [|split; [|split; [|split; [done|split; [done|]]]]].
  all: simpl; unfold oniceconnectionstatechange; cbn [heap on_pc set_heap].
  all: rewrite list_lookup_alter_eq, Hpc; simpl.
  all: unfold engine_write; rewrite Hopen; simpl.
  - by intros [-> | ->].
  - by intros [-> | ->].
  - by repeat case_match.
  - split; by repeat case_match.
Qed.

Lemma ice_state_handler_witness :
  heap ice_disconnected !! 0%nat
  = Some (pc_set_iceConnectionState IceDisconnected receiver) ∧
  status (step ice_disconnected (IceConnectionStateChange 0 IceCompleted)) = None ∧
  error (step ice_disconnected (IceConnectionStateChange 0 IceCompleted))
  = error ice_disconnected ∧
  error (step creating_offer (IceConnectionStateChange 0 IceFailed))
  = Some "Connection failed".
Proof.
  assert (H1 : heap ice_disconnected !! 0%nat
               = Some (pc_set_iceConnectionState IceDisconnected receiver))
    by reflexivity.
  assert (H2 : heap creating_offer !! 0%nat = Some receiver) by reflexivity.
  destruct (ice_state_handler ice_disconnected 0 _ IceCompleted H1 eq_refl)
    as (Ha&_).
  destruct (ice_state_handler creating_offer 0 _ IceFailed H2 eq_refl)
    as (_&Hb&_).
  destruct (Ha (or_intror eq_refl)) as [Ha1 Ha2].
  destruct (Hb (or_introl eq_refl)) as [Hb1 _].
  exact (conj H1 (conj Ha1 (conj Ha2 Hb1))).
Defined.




(** C9, as stated, fails: the 2000 ms are a minimum delay, not a bound.  The
    timeout does not end the wait when the time has passed but when the
    event loop runs the callback of the timer.  Here 2500 ms have passed
    since the wait began, the timer is overdue and still pending, and the
    attempt still waits. *)
Lemma wait_outlasts_the_timeout :
  let s := run mounted [ Negotiate (Some "abc123"); OfferResolved 0 offer0;
                         SetLocalResolved 0; Elapse 2500%N ] in
  stage_of 0 s = Some (AwaitIceGathering 0) ∧ timers s = [(2000%N, 0%nat)] ∧
  now s = 2500%N ∧ (0 + ICE_GATHERING_TIMEOUT < now s)%N ∧
  waiting 0 s = true.
Proof. vm_compute. repeat split. Qed.



(** C10. Called without a device identifier ([undefined] or the empty
    string), [setupRTCConnection] returns at once and the component is as it
    was: connections, ref, track registry, status, error and reconnecting
    flag. *)
Theorem negotiate_without_device_is_noop (s : Component)
    (dongleId : option string) :
  truthy dongleId = false → step s (Negotiate dongleId) = s.
Proof.
  intros H. simpl. destruct dongleId as [d|]; [|done].
  simpl in H. apply negb_false_iff, bool_decide_eq_true in H. by subst.
Qed.

Lemma negotiate_without_device_is_noop_witness :
  truthy None = false ∧ step in_flight (Negotiate None) = in_flight.
Proof.
  assert (H : truthy None = false) by reflexivity.
  exact (conj H (negotiate_without_device_is_noop in_flight None H)).
Defined.

(** * Further properties of the component *)

(** X1. The driver is a state machine that only moves forward, and never
    without a cause.  Whatever the event, an attempt keeps its connection
    and its device and stays at its [await], unless the event is for it: the
    offer moves it to setting the local description; the local description
    set moves it into the ICE wait, or straight to the relay call when
    gathering is complete on its connection; from the wait it goes to the
    relay call when its timer is first in line and due and the event loop
    runs it, or when gathering is complete on its connection after a
    gathering-state event there; a response that passes the checks and the
    constructor moves it to setting the remote description; the remote
    description set makes it return; and it returns from its [await] when
    the event makes it throw inside the [try].  The request for the relay is
    built from the local sdp of the turn and the device of the attempt. *)
Theorem attempts_only_move_forward
    (s : Component) (e : Event) (t : nat) (a : Attempt) :
  attempts s !! t = Some a →
  ∃ a', attempts (step s e) !! t = Some a' ∧ a_pc a' = a_pc a ∧
        a_dongleId a' = a_dongleId a ∧
        (a' = a ∨ advances s t a e (a_stage a')).
Proof. apply step_attempt_forward. Qed.

Lemma attempts_only_move_forward_witness :
  attempts awaiting_relay !! 0%nat
  = Some (parked (AwaitCallAthena (athena_request (Some "v=0 offer") "abc123")))
  ∧ ∃ a', attempts (step awaiting_relay (RelayResolved 0 (Some answer_ok))) !! 0%nat
          = Some a' ∧
          a_pc a' = 0%nat ∧ a_dongleId a' = "abc123" ∧
          (a' = parked (AwaitCallAthena (athena_request (Some "v=0 offer") "abc123"))
           ∨ advances awaiting_relay 0
               (parked (AwaitCallAthena (athena_request (Some "v=0 offer") "abc123")))
               (RelayResolved 0 (Some answer_ok)) (a_stage a')).
Proof.
  assert (H : attempts awaiting_relay !! 0%nat
              = Some (parked (AwaitCallAthena
                                (athena_request (Some "v=0 offer") "abc123"))))
    by (vm_compute; reflexivity).
  exact (conj H (attempts_only_move_forward awaiting_relay
                   (RelayResolved 0 (Some answer_ok)) 0 _ H)).
Defined.

(** X2. There is no automatic retry: once an attempt has returned, failed or
    not, no run of events resumes it, and as long as [setupRTCConnection] is
    not called with a device no attempt is started and no connection is
    created. *)
Theorem returned_attempt_is_never_resumed
    (s : Component) (t : nat) (a : Attempt) (es : list Event) :
  attempts s !! t = Some a → a_stage a = Returned →
  attempts (run s es) !! t = Some a
  ∧ (Forall (λ e, starts_attempt e = false) es →
     length (attempts (run s es)) = length (attempts s) ∧
     length (heap (run s es)) = length (heap s)).
Proof.
  intros Ha Hst. split; [by apply run_returned | apply run_counts].
Qed.

Lemma returned_attempt_is_never_resumed_witness :
  attempts failed_once !! 0%nat = Some (parked Returned) ∧
  attempts (run failed_once [ OfferResolved 0 offer0; Elapse 5000%N;
                              RelayResolved 0 (Some answer_ok) ]) !! 0%nat
  = Some (parked Returned) ∧
  length (heap (run failed_once [ OfferResolved 0 offer0; Elapse 5000%N;
                                  RelayResolved 0 (Some answer_ok) ]))
  = length (heap failed_once).
Proof.
  assert (H : attempts failed_once !! 0%nat = Some (parked Returned))
    by (vm_compute; reflexivity).
  destruct (returned_attempt_is_never_resumed failed_once 0 _
              [ OfferResolved 0 offer0; Elapse 5000%N;
                RelayResolved 0 (Some answer_ok) ] H eq_refl) as [H1 H2].
  assert (H3 : Forall (λ e, starts_attempt e = false)
                 [ OfferResolved 0 offer0; Elapse 5000%N;
                   RelayResolved 0 (Some answer_ok) ])
    by (repeat constructor).
  exact (conj H (conj H1 (proj2 (H2 H3)))).
Defined.



(** X4. The ref never holds a closed connection: when it holds one, that is
    the connection created last, it is open and it is the only live one;
    when it holds none, no connection is live. *)
Theorem ref_holds_the_live_connection (s : Component) :
  reachable s →
  match rtcConnection s with
  | Some i =>
      S i = length (heap s) ∧
      ∃ c, heap s !! i = Some c ∧ pc_closed c = false ∧ live_connections s = [c]
  | None => live_connections s = []
  end.
Proof.
  intros Hs. pose proof (one_live_reachable s Hs) as Hone.
  pose proof (ref_inv_reachable s Hs) as Href.
  destruct (rtcConnection s) as [i|] eqn:E; [|by apply no_ref_no_live].
  destruct (Href i E) as [Hi Hlen]. split; [done|].
  unfold closed_flags in Hi. rewrite list_lookup_fmap in Hi.
  destruct (heap s !! i) as [c|] eqn:Ec; [|done].
  simpl in Hi. injection Hi as Hc. exists c. split; [done|]. split; [done|].
  by apply (live_single s i).
Qed.

Lemma ref_holds_the_live_connection_witness :
  reachable two_attempts ∧ rtcConnection two_attempts = Some 1%nat ∧
  2%nat = length (heap two_attempts) ∧
  ∃ c, heap two_attempts !! 1%nat = Some c ∧ pc_closed c = false ∧
       live_connections two_attempts = [c].
Proof.
  assert (H : reachable two_attempts) by apply run_reachable.
  exact (conj H (conj eq_refl (ref_holds_the_live_connection two_attempts H))).
Defined.



(** X6. Every request waiting at the relay has the operation
    "forwardWebRTC", the cameras "driver" and "wideRoad", empty bridge
    lists, and as target the non-empty device identifier of the call that
    started the attempt, whatever identifier later calls were made with. *)
Theorem relay_request_shape
    (s : Component) (t : nat) (a : Attempt) (req : AthenaRequest) :
  reachable s → attempts s !! t = Some a → a_stage a = AwaitCallAthena req →
  req_type req = "forwardWebRTC"
  ∧ req_cameras req = ["driver"; "wideRoad"]
  ∧ req_bridge_services_in req = [] ∧ req_bridge_services_out req = []
  ∧ req_dongleId req = a_dongleId a ∧ a_dongleId a ≠ "".
Proof.
  intros Hs Ha Hst.
  destruct (request_inv_reachable s Hs t a Ha) as [Hne Hreq].
  by rewrite (Hreq req Hst).
Qed.

Lemma relay_request_shape_witness :
  reachable awaiting_relay ∧
  attempts awaiting_relay !! 0%nat
  = Some (parked (AwaitCallAthena (athena_request (Some "v=0 offer") "abc123")))
  ∧ req_dongleId (athena_request (Some "v=0 offer") "abc123") = "abc123".
Proof.
  assert (H1 : reachable awaiting_relay) by apply run_reachable.
  assert (H2 : attempts awaiting_relay !! 0%nat
               = Some (parked (AwaitCallAthena
                                 (athena_request (Some "v=0 offer") "abc123"))))
    by (vm_compute; reflexivity).
  destruct (relay_request_shape awaiting_relay 0 _ _ H1 H2 eq_refl)
    as (_&_&_&_&H&_).
  exact (conj H1 (conj H2 H)).
Defined.

(** X7. The button is disabled only while the attempt started last is still
    running: in every state the component reaches, a disabled button means
    that attempt has not returned, and a click then changes nothing. *)
Theorem disabled_button_means_attempt_running
    (s : Component) (dongleId : option string) :
  reachable s → button_disabled (render s) = true →
  (∃ a, last (attempts s) = Some a ∧ a_stage a ≠ Returned)
  ∧ click dongleId s = s.
Proof.
  intros Hs Hd. split; [by apply busy_inv_reachable | by apply click_disabled].
Qed.

Lemma disabled_button_means_attempt_running_witness :
  reachable in_flight ∧ button_disabled (render in_flight) = true ∧
  (∃ a, last (attempts in_flight) = Some a ∧ a_stage a ≠ Returned) ∧
  click (Some "def456") in_flight = in_flight.
Proof.
  assert (H1 : reachable in_flight) by apply run_reachable.
  assert (H2 : button_disabled (render in_flight) = true)
    by (vm_compute; reflexivity).
  exact (conj H1 (conj H2
           (disabled_button_means_attempt_running in_flight (Some "def456") H1 H2))).
Defined.



(** X9. Between resets the track registry only grows at its end: over any
    run without teardown and without a new call, the registry at the start
    is a prefix of the registry at the end, and every entry holds a stream
    of exactly the one track its label names. *)
Theorem registry_grows_by_appending (s : Component) (es : list Event) :
  reachable s → Forall (λ e, is_lifecycle_call e = false) es →
  streams s `prefix_of` streams (run s es)
  ∧ Forall single_track (streams (run s es)).
Proof.
  intros [es0 ->] Hes. split; [by apply run_streams_prefix|].
  apply single_track_reachable. exists (es0 ++ es). unfold run.
  by rewrite foldl_app.
Qed.

Lemma registry_grows_by_appending_witness :
  reachable one_track ∧
  streams (run one_track [ TrackEvent 0 "track-2"; OfferResolved 0 offer0;
                           TrackEvent 0 "track-1" ])
  = streams one_track ++ [{| stream := ["track-2"]; label := "track-2" |}] ∧
  streams one_track
  `prefix_of` streams (run one_track [ TrackEvent 0 "track-2";
                                      OfferResolved 0 offer0;
                                      TrackEvent 0 "track-1" ]).
Proof.
  assert (H1 : reachable one_track) by apply run_reachable.
  assert (H2 : Forall (λ e, is_lifecycle_call e = false)
                 [ TrackEvent 0 "track-2"; OfferResolved 0 offer0;
                   TrackEvent 0 "track-1" ]) by (repeat constructor).
  assert (H3 : streams (run one_track [ TrackEvent 0 "track-2";
                                        OfferResolved 0 offer0;
                                        TrackEvent 0 "track-1" ])
               = streams one_track
                 ++ [{| stream := ["track-2"]; label := "track-2" |}])
    by (vm_compute; reflexivity).
  exact (conj H1 (conj H3 (proj1 (registry_grows_by_appending one_track _ H1 H2)))).
Defined.

(** X10. The error of the session is always none, "Connection failed", or
    "Failed to connect: " followed by the thrown value as a string; no
    other text is ever put there. *)
Theorem error_is_one_of_three (s : Component) :
  reachable s → error_shape (error s).
Proof. apply error_shape_reachable. Qed.

Lemma error_is_one_of_three_witness :
  reachable failed_once ∧
  error failed_once = Some "Failed to connect: InvalidStateError" ∧
  error_shape (error failed_once).
Proof.
  assert (H : reachable failed_once) by apply run_reachable.
  exact (conj H (conj eq_refl (error_is_one_of_three failed_once H))).
Defined.

(** X11. At the end of every turn of the event loop the status is none,
    "Creating offer...", "Sending offer via Athena..." or "Initiating
    connection...".  The last is overwritten in the turn that sets it unless
    the constructor throws, and while it is on show the reconnecting flag is
    false, the ref holds no connection, and the error reads "Failed to
    connect: " and a thrown value. *)
Theorem status_at_the_end_of_a_turn (s : Component) :
  reachable s →
  (status s = None ∨ status s = Some "Creating offer..."
   ∨ status s = Some "Sending offer via Athena..."
   ∨ status s = Some "Initiating connection...")
  ∧ (status s = Some "Initiating connection..." →
     reconnecting s = false ∧ rtcConnection s = None ∧
     ∃ text, error s = Some ("Failed to connect: " +:+ text))
  ∧ (∀ d, d ≠ "" →
     status (step s (Negotiate (Some d))) = Some "Creating offer...").
Proof.
  intros Hs. split; [by apply status_shape_reachable|].
  split; [by apply initiating_inv_reachable|].
  intros d Hd. simpl. unfold setupRTCConnection, setupRTCConnection_with.
  by rewrite bool_decide_eq_false_2.
Qed.

Lemma status_at_the_end_of_a_turn_witness :
  let s := step in_flight
             (NegotiateThrows (Some "def456") (OtherThrown "NotSupportedError")) in
  reachable s ∧ status s = Some "Initiating connection..." ∧
  reconnecting s = false ∧ rtcConnection s = None ∧
  ∃ text, error s = Some ("Failed to connect: " +:+ text).
Proof.
  assert (H : reachable
                (step in_flight
                   (NegotiateThrows (Some "def456")
                      (OtherThrown "NotSupportedError"))))
    by (apply reachable_step, run_reachable).
  assert (H0 : status (step in_flight
                         (NegotiateThrows (Some "def456")
                            (OtherThrown "NotSupportedError")))
               = Some "Initiating connection...") by reflexivity.
  destruct (status_at_the_end_of_a_turn _ H) as (_&H1&_).
  exact (conj H (conj H0 (H1 H0))).
Defined.

(** X12. What is rendered in a state the component reaches: the status and
    the error are shown whenever they are set (neither is ever the empty
    string, which [&&] would hide); there is one video per registry entry,
    with the keys 0, 1, ... in order, headings that are pairwise distinct,
    and as [srcObject] the stream of exactly the track its heading names;
    the button is disabled, grey and labelled "Reconnect..." exactly while
    the reconnecting flag is set. *)
Theorem rendered_view (s : Component) :
  reachable s →
  status_line (render s) = status s
  ∧ error_line (render s) = error s
  ∧ item_key <$> video_items (render s) = seq 0 (length (streams s))
  ∧ item_heading <$> video_items (render s) = label <$> streams s
  ∧ NoDup (item_heading <$> video_items (render s))
  ∧ Forall (λ it, item_srcObject it = [item_heading it]) (video_items (render s))
  ∧ (button_text (render s) = "Reconnect..." ↔ reconnecting s = true)
  ∧ (button_className (render s) = "px-4 py-2 rounded bg-gray-600 text-white"
     ↔ button_disabled (render s) = true).
Proof.
  intros Hs.
  assert (Hh : item_heading <$> video_items (render s) = label <$> streams s).
  { simpl. rewrite fmap_imap. apply imap_const. }
  split; [apply and_div_shape, status_shape_not_empty, status_shape_reachable, Hs|].
  split; [apply and_div_shape, error_shape_not_empty, error_shape_reachable, Hs|].
  split; [|split; [done|split; [|split; [|split]]]].
  - simpl. rewrite fmap_imap.
    transitivity (id <$> seq 0 (length (streams s)));
      [apply (imap_seq_0 (streams s) id) | apply list_fmap_id].
  - rewrite Hh. by apply streams_NoDup_reachable.
  - simpl. apply Forall_forall. intros it (i&en&->&Hen)%elem_of_lookup_imap.
    simpl. eapply (proj1 (Forall_forall _ _) (single_track_reachable s Hs)).
    by eapply list_elem_of_lookup_2.
  - simpl. by destruct (reconnecting s).
  - simpl. by destruct (reconnecting s).
Qed.

Lemma rendered_view_witness :
  reachable one_track ∧
  video_items (render one_track)
  = [{| item_key := 0; item_heading := "track-1";
        item_srcObject := ["track-1"] |}] ∧
  status_line (render one_track) = status one_track.
Proof.
  assert (H : reachable one_track) by apply run_reachable.
  exact (conj H (conj eq_refl (proj1 (rendered_view one_track H)))).
Defined.

(** X13. The checks on the relay response accept it exactly when it is not
    null, has no non-empty error and has a non-empty sdp and type, and then
    hand on that type and sdp.  Otherwise they throw an [Error] whose
    message is never empty: the error field when it is non-empty, "Invalid
    response from webrtcd" when sdp or type is missing, and "Unknown error
    from Athena" for a null response only. *)
Theorem check_response_verdict (resp : option AthenaResponse) :
  match check_response resp with
  | inr answer =>
      ∃ r, resp = Some r ∧ well_formed r = true ∧
           resp_type r = Some (sd_type answer) ∧
           resp_sdp r = Some (sd_sdp answer)
  | inl err =>
      ∃ m, err = new_Error m ∧ m ≠ "" ∧
           match resp with
           | None => m = "Unknown error from Athena"
           | Some r =>
               well_formed r = false ∧
               if truthy (resp_error r) then resp_error r = Some m
               else m = "Invalid response from webrtcd"
           end
  end.
Proof.
  destruct resp as [[e sdp ty]|]; [|by eexists].
  unfold check_response, well_formed, js_or, truthy; simpl.
  destruct e as [e|], sdp as [sdp|], ty as [ty|]; simpl;
    repeat (case_bool_decide; simpl); simplify_eq; try by eexists.
  all: eexists; split; [reflexivity|]; simpl;
    repeat case_bool_decide; done.
Qed.





(** X16. When the device identifier changes, the cleanup of the effect
    followed by the effect leaves the component exactly as a plain call of
    [setupRTCConnection] with the new identifier would; without a new
    identifier only the teardown happens.  Tearing down twice is tearing
    down once. *)
Theorem effect_rerun_is_a_fresh_call (s : Component) (dongleId : option string) :
  dongleId_changed dongleId s
  = (if truthy dongleId then setupRTCConnection dongleId s
     else disconnectRTCConnection s)
  ∧ disconnectRTCConnection (disconnectRTCConnection s)
    = disconnectRTCConnection s.
Proof. split; [apply setup_after_disconnect | apply disconnect_idempotent]. Qed.

(** X17. Only the two calls into the lifecycle manager open or close a
    connection or write the ref: no resolved or rejected promise, timer,
    track event or engine event does. *)
Theorem only_lifecycle_calls_touch_connections (s : Component) (e : Event) :
  is_lifecycle_call e = false →
  rtcConnection (step s e) = rtcConnection s
  ∧ closed_flags (step s e) = closed_flags s.
Proof. intros He. exact (step_lifecycle_frame s e He). Qed.

Lemma only_lifecycle_calls_touch_connections_witness :
  is_lifecycle_call (RelayRejected 0 (OtherThrown "timeout")) = false ∧
  rtcConnection (step awaiting_relay (RelayRejected 0 (OtherThrown "timeout")))
  = rtcConnection awaiting_relay ∧
  closed_flags (step awaiting_relay (RelayRejected 0 (OtherThrown "timeout")))
  = closed_flags awaiting_relay.
Proof.
  assert (H : is_lifecycle_call (RelayRejected 0 (OtherThrown "timeout")) = false)
    by reflexivity.
  exact (conj H (only_lifecycle_calls_touch_connections awaiting_relay
                   (RelayRejected 0 (OtherThrown "timeout")) H)).
Defined.
